(** * websocket-server-chat: a model of [index.js] and its properties

    The program is an Express application over a PostgreSQL store
    ([usuarios], [mensagens]) with a WebSocket side channel: a process-wide
    [Map] from user ids to sockets ([conexoes]) and a dispatcher
    ([notificarNovaMensagem]) that pushes a freshly inserted message to the
    recipient's socket.

    Part I embeds the program: the SQL statements of the five routes as
    operations on tables, the ECMAScript [Map] as its list of entries, the
    three WebSocket callbacks and the dispatcher as state transformers.
    Part II proves the properties.

    Layout of Part I
    - [Sql]: the clauses the statements are built from (ORDER BY, DISTINCT ON,
      VARCHAR(n), serial columns);
    - [Usuario], [Mensagem], [banco], [criarTabelas]: the schema;
    - the INSERT statements and the SELECT statements;
    - [Js]: JSON values, property access, SameValueZero and [Map];
    - the server state, the callbacks, the routes and the event system;
    - the invariants and the vocabulary of the statements;
    - [Json], [Escreve]: a reader of JSON texts and a writer of message rows,
      on which the process can be run;
    - [Cenario]: runs of the process.

    Time does not enter the model except as the value [CURRENT_TIMESTAMP]
    has when a row is inserted; events happen one at a time, as they do on
    the event loop of the process. *)

From Stdlib Require Import ZArith QArith List String Ascii Bool Arith Lia.
From Stdlib Require Import Permutation Sorted.
Import ListNotations.

Set Warnings "-register-all".

Local Open Scope string_scope.
Local Open Scope list_scope.
Local Open Scope Z_scope.

(* ================================================================== *)
(** * Part I. The program                                              *)
(* ================================================================== *)

(** ** SQL clauses *)

Module Sql.

(** Errors a statement can end with. *)
Inductive erro :=
| invalid_text_representation   (* a parameter that is no integer *)
| sequence_limit                (* nextval past the maximum of a serial column *)
| string_data_right_truncation  (* value too long for VARCHAR(n) *)
| not_null_violation
| unique_violation
| foreign_key_violation.

(** A statement either fails with an [erro] or yields a value. *)
Definition ret {A : Type} (a : A) : erro + A := inr a.

Definition falha {A : Type} (e : erro) : erro + A := inl e.

Definition bind {A B : Type} (m : erro + A) (k : A -> erro + B) : erro + B :=
  match m with
  | inl e => inl e
  | inr a => k a
  end.

Notation "x <- m ;; k" := (bind m (fun x => k))
  (at level 61, m at next level, right associativity).

Definition exige (b : bool) (e : erro) : erro + unit :=
  if b then ret tt else falha e.

(** An integer parameter as the driver binds it: NULL ([undefined] and
    [null] are sent as NULL), an integer, or a text that the store does not
    read as an integer. *)
Inductive parametro := PNulo | PInt (z : Z) | PInvalido.

(** The store reads an [INT] parameter when the statement is bound, before
    anything runs: a value outside the 32-bit range is refused there. *)
Definition INT_MAX : Z := 2147483647.

Definition INT_MIN : Z := -2147483648.

Definition bind_int (p : parametro) : erro + option Z :=
  match p with
  | PNulo => ret None
  | PInt z => if (INT_MIN <=? z) && (z <=? INT_MAX) then ret (Some z)
              else falha invalid_text_representation
  | PInvalido => falha invalid_text_representation
  end.

(** [SERIAL]: the column defaults to [nextval] of a 32-bit sequence that
    starts at 1. The state kept is the last value handed out. *)
Definition nextval (ultimo : Z) : erro + Z :=
  if ultimo <? INT_MAX then ret (ultimo + 1) else falha sequence_limit.

(** [NOT NULL]. *)
Definition not_null {A : Type} (v : option A) : erro + A :=
  match v with
  | Some a => ret a
  | None => falha not_null_violation
  end.

Fixpoint so_espacos (s : string) : bool :=
  match s with
  | EmptyString => true
  | String c r => Ascii.eqb c " "%char && so_espacos r
  end.

(** Assignment to a [VARCHAR(n)] column: a longer value is an error unless
    the excess is all spaces, and then it is cut to [n] characters. NULL
    passes through. *)
Definition varchar (n : nat) (v : option string) : erro + option string :=
  match v with
  | None => ret None
  | Some s =>
      if (String.length s <=? n)%nat then ret (Some s)
      else if so_espacos (substring n (String.length s - n) s)
           then ret (Some (substring 0 n s))
           else falha string_data_right_truncation
  end.

(** *** ORDER BY

    [ORDER BY] returns the rows in an order that agrees with the sort keys;
    the order among rows that are equal on every key is left to the store
    (it depends on the plan and on where a scan starts). The clause is
    therefore a relation between the rows that enter and the sequences that
    may come out; [le r1 r2] says that [r1] may stand before [r2]. *)
Definition order_by {A : Type} (le : A -> A -> bool) (linhas saida : list A) : Prop :=
  Permutation linhas saida /\ StronglySorted (fun x y => le x y = true) saida.

(** One admissible execution: a stable insertion sort, which keeps rows
    with equal keys in the order they arrive. *)
Fixpoint insere {A : Type} (le : A -> A -> bool) (x : A) (l : list A) : list A :=
  match l with
  | [] => [x]
  | y :: r => if le x y then x :: y :: r else y :: insere le x r
  end.

Definition ordena {A : Type} (le : A -> A -> bool) (l : list A) : list A :=
  fold_right (insere le) [] l.

(** *** DISTINCT ON

    [SELECT DISTINCT ON (e)] over ordered rows keeps the first row of each
    run of rows that agree on [e]; [mesmo r1 r2] compares [e]. *)
Fixpoint distinct_apos {A : Type} (mesmo : A -> A -> bool) (anterior : A) (l : list A) : list A :=
  match l with
  | [] => []
  | x :: r => if mesmo anterior x then distinct_apos mesmo anterior r
              else x :: distinct_apos mesmo x r
  end.

Definition distinct_on {A : Type} (mesmo : A -> A -> bool) (l : list A) : list A :=
  match l with
  | [] => []
  | x :: r => x :: distinct_apos mesmo x r
  end.

End Sql.

Import Sql.

(** ** The schema ([criarTabelas]) *)

(** A row of [usuarios]. Timestamps are microseconds since the epoch. *)
Module Usuario.
Record t := mk {
  id : Z;             (* SERIAL PRIMARY KEY *)
  nome : string;      (* VARCHAR(100) NOT NULL *)
  telefone : string;  (* VARCHAR(20) UNIQUE NOT NULL *)
  criado_em : Z       (* TIMESTAMP DEFAULT CURRENT_TIMESTAMP *)
}.
End Usuario.

(** A row of [mensagens]. *)
Module Mensagem.
Record t := mk {
  id : Z;               (* SERIAL PRIMARY KEY *)
  remetente_id : Z;     (* INT NOT NULL, REFERENCES usuarios(id) *)
  destinatario_id : Z;  (* INT NOT NULL, REFERENCES usuarios(id) *)
  texto : string;       (* TEXT NOT NULL *)
  enviado_em : Z        (* TIMESTAMP DEFAULT CURRENT_TIMESTAMP *)
}.
End Mensagem.

(** The store: both tables and the two sequences behind the serial columns. *)
Record banco := mk_banco {
  usuarios : list Usuario.t;
  mensagens : list Mensagem.t;
  usuarios_id_seq : Z;
  mensagens_id_seq : Z
}.

Definition banco_vazio : banco :=
  {| usuarios := []; mensagens := []; usuarios_id_seq := 0; mensagens_id_seq := 0 |}.

(** [CREATE TABLE IF NOT EXISTS] twice: tables that exist are kept as they
    are, otherwise both start empty. *)
Definition criarTabelas (existente : option banco) : banco :=
  match existente with
  | Some db => db
  | None => banco_vazio
  end.

(** ** INSERT statements *)

(** [INSERT INTO usuarios (nome, telefone) VALUES ($1, $2) RETURNING *]
    run at time [agora]. The row is built first (the serial default, then the
    two values cut to their column types), then checked (NOT NULL, the
    primary key, UNIQUE on [telefone]). A sequence value that was handed out
    stays consumed when the statement fails. *)
Definition insert_usuarios_linha (agora : Z) (nome telefone : option string)
    (db : banco) (novo_id : Z) : erro + Usuario.t :=
  n <- varchar 100 nome ;;
  t <- varchar 20 telefone ;;
  n <- not_null n ;;
  t <- not_null t ;;
  _ <- exige (negb (existsb (fun u => Usuario.id u =? novo_id) (usuarios db)))
             unique_violation ;;
  _ <- exige (negb (existsb (fun u => String.eqb (Usuario.telefone u) t) (usuarios db)))
             unique_violation ;;
  ret (Usuario.mk novo_id n t agora).

Definition insert_usuarios (agora : Z) (nome telefone : option string)
    (db : banco) : banco * (erro + Usuario.t) :=
  match nextval (usuarios_id_seq db) with
  | inl e => (db, inl e)
  | inr novo_id =>
      let db1 := {| usuarios := usuarios db; mensagens := mensagens db;
                    usuarios_id_seq := novo_id;
                    mensagens_id_seq := mensagens_id_seq db |} in
      match insert_usuarios_linha agora nome telefone db novo_id with
      | inl e => (db1, inl e)
      | inr u =>
          ({| usuarios := usuarios db ++ [u]; mensagens := mensagens db;
              usuarios_id_seq := novo_id;
              mensagens_id_seq := mensagens_id_seq db |}, inr u)
      end
  end.

Definition existe_usuario (db : banco) (i : Z) : bool :=
  existsb (fun u => Usuario.id u =? i) (usuarios db).

(** [INSERT INTO mensagens (remetente_id, destinatario_id, texto)
     VALUES ($1, $2, $3) RETURNING *]. *)
Definition insert_mensagens_linha (agora : Z) (remetente destinatario : option Z)
    (texto : option string) (db : banco) (novo_id : Z) : erro + Mensagem.t :=
  r <- not_null remetente ;;
  d <- not_null destinatario ;;
  x <- not_null texto ;;
  _ <- exige (negb (existsb (fun m => Mensagem.id m =? novo_id) (mensagens db)))
             unique_violation ;;
  _ <- exige (existe_usuario db r) foreign_key_violation ;;
  _ <- exige (existe_usuario db d) foreign_key_violation ;;
  ret (Mensagem.mk novo_id r d x agora).

Definition insert_mensagens (agora : Z) (remetente_id destinatario_id : parametro)
    (texto : option string) (db : banco) : banco * (erro + Mensagem.t) :=
  match bind_int remetente_id, bind_int destinatario_id with
  | inl e, _ => (db, inl e)
  | _, inl e => (db, inl e)
  | inr r, inr d =>
      match nextval (mensagens_id_seq db) with
      | inl e => (db, inl e)
      | inr novo_id =>
          let db1 := {| usuarios := usuarios db; mensagens := mensagens db;
                        usuarios_id_seq := usuarios_id_seq db;
                        mensagens_id_seq := novo_id |} in
          match insert_mensagens_linha agora r d texto db novo_id with
          | inl e => (db1, inl e)
          | inr m =>
              ({| usuarios := usuarios db; mensagens := mensagens db ++ [m];
                  usuarios_id_seq := usuarios_id_seq db;
                  mensagens_id_seq := novo_id |}, inr m)
          end
      end
  end.

(** ** SELECT statements *)

(** [FROM mensagens m
     JOIN usuarios u1 ON m.remetente_id = u1.id
     JOIN usuarios u2 ON m.destinatario_id = u2.id]:
    every message with every user row that matches its sender and every
    user row that matches its recipient. *)
Definition juncao (db : banco) : list (Mensagem.t * Usuario.t * Usuario.t) :=
  flat_map (fun m =>
    flat_map (fun u1 =>
      map (fun u2 => (m, u1, u2))
          (filter (fun u2 => Mensagem.destinatario_id m =? Usuario.id u2) (usuarios db)))
      (filter (fun u1 => Mensagem.remetente_id m =? Usuario.id u1) (usuarios db)))
    (mensagens db).

(** *** GET /usuarios *)

(** [ORDER BY nome]. *)
Definition por_nome (u1 u2 : Usuario.t) : bool :=
  String.leb (Usuario.nome u1) (Usuario.nome u2).

(** [SELECT * FROM usuarios ORDER BY nome]. *)
Definition select_usuarios (db : banco) (saida : list Usuario.t) : Prop :=
  order_by por_nome (usuarios db) saida.

Definition executa_select_usuarios (db : banco) : list Usuario.t :=
  ordena por_nome (usuarios db).

(** *** GET /mensagens/:usuario1_id/:usuario2_id *)

(** A row of the conversation query: [m.*] and the two names. *)
Module Conversa.
Record t := mk {
  m : Mensagem.t;
  remetente_nome : string;
  destinatario_nome : string
}.
End Conversa.

(** [WHERE (m.remetente_id = $1 AND m.destinatario_id = $2)
        OR (m.remetente_id = $2 AND m.destinatario_id = $1)]. *)
Definition entre (p1 p2 : Z) (m : Mensagem.t) : bool :=
  ((Mensagem.remetente_id m =? p1) && (Mensagem.destinatario_id m =? p2))
  || ((Mensagem.remetente_id m =? p2) && (Mensagem.destinatario_id m =? p1)).

(** The rows before [ORDER BY]. *)
Definition linhas_conversa (db : banco) (p1 p2 : Z) : list Conversa.t :=
  map (fun '(m, u1, u2) => Conversa.mk m (Usuario.nome u1) (Usuario.nome u2))
      (filter (fun '(m, _, _) => entre p1 p2 m) (juncao db)).

(** [ORDER BY m.enviado_em ASC]. *)
Definition por_enviado_em_asc (r1 r2 : Conversa.t) : bool :=
  Mensagem.enviado_em (Conversa.m r1) <=? Mensagem.enviado_em (Conversa.m r2).

(** The query of the route: the sequences it may return. *)
Definition select_conversa (db : banco) (p1 p2 : Z) (saida : list Conversa.t) : Prop :=
  order_by por_enviado_em_asc (linhas_conversa db p1 p2) saida.

Definition executa_select_conversa (db : banco) (p1 p2 : Z) : list Conversa.t :=
  ordena por_enviado_em_asc (linhas_conversa db p1 p2).

(** *** GET /conversas/:usuario_id *)

(** A row of the summary query. *)
Module Resumo.
Record t := mk {
  outro_usuario_id : Z;
  outro_usuario_nome : string;
  ultima_mensagem : string;
  enviado_em : Z
}.
End Resumo.

(** [WHERE m.remetente_id = $1 OR m.destinatario_id = $1]. *)
Definition envolve (p1 : Z) (m : Mensagem.t) : bool :=
  (Mensagem.remetente_id m =? p1) || (Mensagem.destinatario_id m =? p1).

(** [CASE WHEN m.remetente_id = $1 THEN m.destinatario_id ELSE m.remetente_id END]. *)
Definition outro_usuario (p1 : Z) (m : Mensagem.t) : Z :=
  if Mensagem.remetente_id m =? p1 then Mensagem.destinatario_id m
  else Mensagem.remetente_id m.

(** The select list of the inner query. *)
Definition resumo_de (p1 : Z) (j : Mensagem.t * Usuario.t * Usuario.t) : Resumo.t :=
  let '(m, u1, u2) := j in
  Resumo.mk (outro_usuario p1 m)
            (if Mensagem.remetente_id m =? p1 then Usuario.nome u2 else Usuario.nome u1)
            (Mensagem.texto m)
            (Mensagem.enviado_em m).

(** The rows of the inner query before its [ORDER BY]. *)
Definition linhas_sub (db : banco) (p1 : Z) : list Resumo.t :=
  map (resumo_de p1) (filter (fun '(m, _, _) => envolve p1 m) (juncao db)).

(** Inner [ORDER BY m.enviado_em DESC]. *)
Definition por_enviado_em_desc (r1 r2 : Resumo.t) : bool :=
  Resumo.enviado_em r2 <=? Resumo.enviado_em r1.

(** Outer [ORDER BY outro_usuario_id, enviado_em DESC]. *)
Definition por_outro_usuario_e_enviado_em_desc (r1 r2 : Resumo.t) : bool :=
  (Resumo.outro_usuario_id r1 <? Resumo.outro_usuario_id r2)
  || ((Resumo.outro_usuario_id r1 =? Resumo.outro_usuario_id r2)
      && (Resumo.enviado_em r2 <=? Resumo.enviado_em r1)).

(** [DISTINCT ON (outro_usuario_id)]. *)
Definition mesmo_outro_usuario (r1 r2 : Resumo.t) : bool :=
  Resumo.outro_usuario_id r1 =? Resumo.outro_usuario_id r2.

(** The query of the route: the inner rows in some order allowed by the inner
    [ORDER BY], reordered as the outer [ORDER BY] allows, then the first row
    of every [outro_usuario_id]. *)
Definition select_conversas (db : banco) (p1 : Z) (saida : list Resumo.t) : Prop :=
  exists sub ordenadas,
    order_by por_enviado_em_desc (linhas_sub db p1) sub /\
    order_by por_outro_usuario_e_enviado_em_desc sub ordenadas /\
    saida = distinct_on mesmo_outro_usuario ordenadas.

Definition executa_select_conversas (db : banco) (p1 : Z) : list Resumo.t :=
  distinct_on mesmo_outro_usuario
    (ordena por_outro_usuario_e_enviado_em_desc
       (ordena por_enviado_em_desc (linhas_sub db p1))).

(** ** JavaScript values and [Map] *)

Module Js.

(** A number: a finite double (as the rational it denotes; [-0] and [+0]
    are both [0]), an infinity, or NaN. *)
Inductive numero := Finito (q : Q) | Infinito (negativo : bool) | NaN.

(** What [JSON.parse] returns. An object is the list of its own properties. *)
Inductive valor :=
| Null
| Bool (b : bool)
| Num (n : numero)
| Str (s : string)
| Arr (elementos : list valor)
| Obj (props : list (string * valor)).

Inductive excecao := SyntaxError | TypeError.

Fixpoint assoc {A : Type} (nome : string) (props : list (string * A)) : option A :=
  match props with
  | [] => None
  | (n, v) :: r => if String.eqb n nome then Some v else assoc nome r
  end.

(** [v.nome] for a name that no built-in prototype defines ([tipo] and
    [usuario_id] are such names): reading it from [null] throws, an object
    gives its own property, anything else gives [undefined] ([None]). *)
Definition propriedade (nome : string) (v : valor) : excecao + option valor :=
  match v with
  | Null => inl TypeError
  | Obj props => inr (assoc nome props)
  | _ => inr None
  end.

(** [x === s] for a string literal [s]. *)
Definition igual_a_texto (x : option valor) (s : string) : bool :=
  match x with
  | Some (Str t) => String.eqb t s
  | _ => false
  end.

(** Whether converting a parsed value to a string (as a template literal
    does) throws. A plain object is converted by [Object.prototype.toString]
    unless it has an own property [toString]: a parsed value is never
    callable, [valueOf] then returns the object itself, and the conversion
    ends in a TypeError. An array joins the conversions of its elements. *)
Fixpoint to_string_lanca (v : valor) : bool :=
  match v with
  | Arr elementos => existsb to_string_lanca elementos
  | Obj props => existsb (fun p => String.eqb (fst p) "toString") props
  | _ => false
  end.

(** A [Map] key: a primitive, or an object known by its identity. *)
Inductive chave :=
| KUndefined
| KNull
| KBool (b : bool)
| KNum (n : numero)
| KStr (s : string)
| KRef (endereco : nat) (v : valor).

(** The key a value read from a parsed frame stands for; [endereco] is the
    identity of the value when it is an array or an object. *)
Definition chave_de (x : option valor) (endereco : nat) : chave :=
  match x with
  | None => KUndefined
  | Some Null => KNull
  | Some (Bool b) => KBool b
  | Some (Num n) => KNum n
  | Some (Str s) => KStr s
  | Some v => KRef endereco v
  end.

(** The key a 32-bit integer column value is read as: a number. *)
Definition chave_int (z : Z) : chave := KNum (Finito (inject_Z z)).

Definition numero_eqb (a b : numero) : bool :=
  match a, b with
  | Finito x, Finito y => Qeq_bool x y
  | Infinito x, Infinito y => Bool.eqb x y
  | NaN, NaN => true
  | _, _ => false
  end.

(** SameValueZero, the comparison of [Map] keys: no conversion between
    types, objects by identity. *)
Definition same_value_zero (a b : chave) : bool :=
  match a, b with
  | KUndefined, KUndefined => true
  | KNull, KNull => true
  | KBool x, KBool y => Bool.eqb x y
  | KNum x, KNum y => numero_eqb x y
  | KStr x, KStr y => String.eqb x y
  | KRef x _, KRef y _ => Nat.eqb x y
  | _, _ => false
  end.

Definition template_lanca (k : chave) : bool :=
  match k with
  | KRef _ v => to_string_lanca v
  | _ => false
  end.

(** [[MapData]]: the entries in insertion order; a deleted entry leaves an
    empty record behind ([None]), so that live iterators keep their place. *)
Definition MapData (V : Type) := list (option (chave * V)).

(** [Map.prototype.get]. *)
Fixpoint Map_get {V : Type} (k : chave) (m : MapData V) : option V :=
  match m with
  | [] => None
  | Some (k', v) :: r => if same_value_zero k' k then Some v else Map_get k r
  | None :: r => Map_get k r
  end.

(** [Map.prototype.set]: the value of the entry with that key is replaced,
    or a new entry is appended. *)
Fixpoint Map_set {V : Type} (k : chave) (v : V) (m : MapData V) : MapData V :=
  match m with
  | [] => [Some (k, v)]
  | Some (k', v') :: r =>
      if same_value_zero k' k then Some (k', v) :: r
      else Some (k', v') :: Map_set k v r
  | None :: r => None :: Map_set k v r
  end.

(** [Map.prototype.delete]: the entry with that key is emptied. *)
Fixpoint Map_delete {V : Type} (k : chave) (m : MapData V) : MapData V :=
  match m with
  | [] => []
  | Some (k', v') :: r =>
      if same_value_zero k' k then None :: r
      else Some (k', v') :: Map_delete k r
  | None :: r => None :: Map_delete k r
  end.

(** The entries an iteration from the start visits. *)
Definition Map_entries {V : Type} (m : MapData V) : list (chave * V) :=
  flat_map (fun e => match e with Some kv => [kv] | None => [] end) m.

End Js.

(** ** The server *)

(** A socket ([ws]) is known by its identity: the n-th connection accepted. *)
Definition socket := nat.

Inductive ready_state := CONNECTING | OPEN | CLOSING | CLOSED.

Definition ready_state_eqb (a b : ready_state) : bool :=
  match a, b with
  | CONNECTING, CONNECTING | OPEN, OPEN | CLOSING, CLOSING | CLOSED, CLOSED => true
  | _, _ => false
  end.

(** The state of the process and of its store. *)
Record servidor := mk_servidor {
  pool : banco;                       (* the tables behind [pool] *)
  conexoes : Js.MapData socket;       (* [const conexoes = new Map()] *)
  sockets : list ready_state;         (* [readyState] of every socket accepted *)
  enviados : list (socket * string);  (* the calls of [ws.send], oldest first *)
  objetos : nat                       (* identities given to parsed objects *)
}.

Definition com_pool (db : banco) (s : servidor) : servidor :=
  mk_servidor db (conexoes s) (sockets s) (enviados s) (objetos s).

Definition com_conexoes (c : Js.MapData socket) (s : servidor) : servidor :=
  mk_servidor (pool s) c (sockets s) (enviados s) (objetos s).

Definition com_sockets (l : list ready_state) (s : servidor) : servidor :=
  mk_servidor (pool s) (conexoes s) l (enviados s) (objetos s).

Definition readyState (ws : socket) (s : servidor) : ready_state :=
  nth ws (sockets s) CLOSED.

(** The transport moves the socket [ws] to the state [e]. *)
Definition com_ready_state (ws : socket) (e : ready_state) (s : servidor) : servidor :=
  com_sockets (firstn ws (sockets s) ++ e :: skipn (S ws) (sockets s)) s.

(** The state when the process starts listening: the tables exist, the map
    is empty, no socket was accepted. *)
Definition inicio (existente : option banco) : servidor :=
  mk_servidor (criarTabelas existente) [] [] [] 0.

Section Processo.

(** The two built-ins the program calls are left open: the results hold for
    every behaviour of [JSON.parse] ([None]: it throws a SyntaxError) and of
    [JSON.stringify] on a message row. *)
Variable JSON_parse : string -> option Js.valor.
Variable JSON_stringify : Mensagem.t -> string.

(** [notificarNovaMensagem(mensagem)]. *)
Definition notificarNovaMensagem (mensagem : Mensagem.t) (s : servidor) : servidor :=
  match Js.Map_get (Js.chave_int (Mensagem.destinatario_id mensagem)) (conexoes s) with
  | Some wsDestinatario =>
      if ready_state_eqb (readyState wsDestinatario s) OPEN
      then mk_servidor (pool s) (conexoes s) (sockets s)
             (enviados s ++ [(wsDestinatario, JSON_stringify mensagem)]) (objetos s)
      else s
  | None => s
  end.

(** [ws.on('message', (mensagem) => ...)]: the state after the callback and
    the exception it ends with, if any. The template literal of the log line
    converts the key to a string after the entry is set. *)
Definition on_message (ws : socket) (mensagem : string) (s : servidor)
    : servidor * option Js.excecao :=
  match JSON_parse mensagem with
  | None => (s, Some Js.SyntaxError)
  | Some dados =>
      match Js.propriedade "tipo" dados with
      | inl e => (s, Some e)
      | inr tipo =>
          if Js.igual_a_texto tipo "registrar" then
            match Js.propriedade "usuario_id" dados with
            | inl e => (s, Some e)
            | inr usuario_id =>
                let k := Js.chave_de usuario_id (objetos s) in
                let s' := mk_servidor (pool s) (Js.Map_set k ws (conexoes s))
                            (sockets s) (enviados s) (S (objetos s)) in
                if Js.template_lanca k then (s', Some Js.TypeError) else (s', None)
            end
          else (s, None)
      end
  end.

(** The loop of [ws.on('close', ...)]: [for (let [usuario_id, socket] of
    conexoes.entries())] walks the entry list by index while the body deletes
    from it; [n] bounds the entries still to visit. *)
Fixpoint on_close_de (n index : nat) (ws : socket) (m : Js.MapData socket)
    : Js.MapData socket * option Js.excecao :=
  match n with
  | O => (m, None)
  | S n' =>
      match nth_error m index with
      | None => (m, None)
      | Some None => on_close_de n' (S index) ws m
      | Some (Some (usuario_id, socket)) =>
          if Nat.eqb socket ws then
            let m' := Js.Map_delete usuario_id m in
            if Js.template_lanca usuario_id then (m', Some Js.TypeError)
            else on_close_de n' (S index) ws m'
          else on_close_de n' (S index) ws m
      end
  end.

(** [ws.on('close', () => ...)]. *)
Definition on_close (ws : socket) (s : servidor) : servidor * option Js.excecao :=
  let (m, e) := on_close_de (List.length (conexoes s)) 0 ws (conexoes s) in
  (com_conexoes m s, e).

(** ** The routes *)

Inductive corpo :=
| json_usuario (u : Usuario.t)
| json_usuarios (l : list Usuario.t)
| json_mensagem (m : Mensagem.t)
| json_conversa (l : list Conversa.t)
| json_conversas (l : list Resumo.t)
| json_erro (erro : string).

Record resposta := mk_resposta { status : Z; json : corpo }.

(** [app.post('/usuarios', ...)]. *)
Definition post_usuarios (agora : Z) (nome telefone : option string) (s : servidor)
    : servidor * resposta :=
  match insert_usuarios agora nome telefone (pool s) with
  | (db, inr u) => (com_pool db s, mk_resposta 200 (json_usuario u))
  | (db, inl _) =>
      (com_pool db s, mk_resposta 400 (json_erro "Usuário já existe ou erro ao criar"))
  end.

(** [app.get('/usuarios', ...)]. *)
Definition get_usuarios (s : servidor) (r : resposta) : Prop :=
  exists saida, select_usuarios (pool s) saida /\ r = mk_resposta 200 (json_usuarios saida).

(** [app.post('/mensagens', ...)]. *)
Definition post_mensagens (agora : Z) (remetente_id destinatario_id : parametro)
    (texto : option string) (s : servidor) : servidor * resposta :=
  match insert_mensagens agora remetente_id destinatario_id texto (pool s) with
  | (db, inr mensagem) =>
      (notificarNovaMensagem mensagem (com_pool db s),
       mk_resposta 200 (json_mensagem mensagem))
  | (db, inl _) =>
      (com_pool db s, mk_resposta 400 (json_erro "Erro ao enviar mensagem"))
  end.

(** [app.get('/mensagens/:usuario1_id/:usuario2_id', ...)]. A path segment
    is never NULL; one that is no integer makes the query fail. *)
Definition get_mensagens (usuario1_id usuario2_id : parametro) (s : servidor)
    (r : resposta) : Prop :=
  match bind_int usuario1_id, bind_int usuario2_id with
  | inr (Some p1), inr (Some p2) =>
      exists saida, select_conversa (pool s) p1 p2 saida /\
                    r = mk_resposta 200 (json_conversa saida)
  | inr _, inr _ => r = mk_resposta 200 (json_conversa [])
  | _, _ => r = mk_resposta 500 (json_erro "Erro ao buscar mensagens")
  end.

(** [app.get('/conversas/:usuario_id', ...)]. *)
Definition get_conversas (usuario_id : parametro) (s : servidor) (r : resposta) : Prop :=
  match bind_int usuario_id with
  | inr (Some p1) =>
      exists saida, select_conversas (pool s) p1 saida /\
                    r = mk_resposta 200 (json_conversas saida)
  | inr None => r = mk_resposta 200 (json_conversas [])
  | inl _ => r = mk_resposta 500 (json_erro "Erro ao buscar conversas")
  end.

(** ** Events

    What can happen to a running process, one event at a time. A callback
    that throws ends the process, so it gives no next state. *)
Inductive evento :=
| POST_usuarios (agora : Z) (nome telefone : option string)
| POST_mensagens (agora : Z) (remetente_id destinatario_id : parametro)
                 (texto : option string)
| connection                          (* [wss.on('connection')]: a new socket *)
| message (ws : socket) (mensagem : string)
| closing (ws : socket)               (* the closing handshake starts *)
| close (ws : socket).

Inductive passo : servidor -> evento -> servidor -> Prop :=
| passo_post_usuarios s agora nome telefone :
    passo s (POST_usuarios agora nome telefone)
          (fst (post_usuarios agora nome telefone s))
| passo_post_mensagens s agora r d texto :
    passo s (POST_mensagens agora r d texto)
          (fst (post_mensagens agora r d texto s))
| passo_connection s :
    passo s connection (com_sockets (sockets s ++ [OPEN]) s)
| passo_message s ws mensagem s' :
    nth_error (sockets s) ws = Some OPEN ->
    on_message ws mensagem s = (s', None) ->
    passo s (message ws mensagem) s'
| passo_closing s ws :
    nth_error (sockets s) ws = Some OPEN ->
    passo s (closing ws) (com_ready_state ws CLOSING s)
| passo_close s ws estado s' :
    nth_error (sockets s) ws = Some estado -> estado <> CLOSED ->
    on_close ws (com_ready_state ws CLOSED s) = (s', None) ->
    passo s (close ws) s'.

(** The states a process started on the store [existente] can be in. *)
Inductive alcancavel (existente : option banco) : servidor -> Prop :=
| alcancavel_inicio : alcancavel existente (inicio existente)
| alcancavel_passo s e s' :
    alcancavel existente s -> passo s e s' -> alcancavel existente s'.

(** The step as a function: the next state, if the event can happen and its
    callback does not throw. *)
Definition executa (e : evento) (s : servidor) : option servidor :=
  match e with
  | POST_usuarios agora nome telefone =>
      Some (fst (post_usuarios agora nome telefone s))
  | POST_mensagens agora r d texto =>
      Some (fst (post_mensagens agora r d texto s))
  | connection => Some (com_sockets (sockets s ++ [OPEN]) s)
  | message ws mensagem =>
      match nth_error (sockets s) ws with
      | Some OPEN =>
          match on_message ws mensagem s with
          | (s', None) => Some s'
          | (_, Some _) => None
          end
      | _ => None
      end
  | closing ws =>
      match nth_error (sockets s) ws with
      | Some OPEN => Some (com_ready_state ws CLOSING s)
      | _ => None
      end
  | close ws =>
      match nth_error (sockets s) ws with
      | Some CLOSED | None => None
      | Some _ =>
          match on_close ws (com_ready_state ws CLOSED s) with
          | (s', None) => Some s'
          | (_, Some _) => None
          end
      end
  end.

Fixpoint executa_todos (es : list evento) (s : servidor) : option servidor :=
  match es with
  | [] => Some s
  | e :: r =>
      match executa e s with
      | Some s' => executa_todos r s'
      | None => None
      end
  end.

End Processo.

(** ** Invariants *)

(** What the constraints of the schema keep true of the store. *)
Record banco_ok (db : banco) : Prop := mk_banco_ok {
  pk_usuarios : NoDup (map Usuario.id (usuarios db));
  unique_telefone : NoDup (map Usuario.telefone (usuarios db));
  lim_usuarios : 0 <= usuarios_id_seq db <= INT_MAX;
  seq_usuarios : Forall (fun u => 1 <= Usuario.id u <= usuarios_id_seq db) (usuarios db);
  varchar_usuarios :
    Forall (fun u => (String.length (Usuario.nome u) <= 100)%nat /\
                     (String.length (Usuario.telefone u) <= 20)%nat) (usuarios db);
  pk_mensagens : NoDup (map Mensagem.id (mensagens db));
  lim_mensagens : 0 <= mensagens_id_seq db <= INT_MAX;
  seq_mensagens : Forall (fun m => 1 <= Mensagem.id m <= mensagens_id_seq db) (mensagens db);
  fk_remetente :
    Forall (fun m => In (Mensagem.remetente_id m) (map Usuario.id (usuarios db)))
           (mensagens db);
  fk_destinatario :
    Forall (fun m => In (Mensagem.destinatario_id m) (map Usuario.id (usuarios db)))
           (mensagens db)
}.

(** No two entries of a [Map] have the same key. *)
Fixpoint chaves_distintas {V : Type} (m : Js.MapData V) : Prop :=
  match m with
  | [] => True
  | None :: r => chaves_distintas r
  | Some (k, _) :: r => Js.Map_get k r = None /\ chaves_distintas r
  end.

(** What holds of [conexoes] in every state a running process can be in:
    the keys are distinct and convert to strings, the identities of the
    object keys were handed out, and every socket in the map was accepted
    and has not closed. *)
Record registro_ok (s : servidor) : Prop := mk_registro_ok {
  ok_chaves : chaves_distintas (conexoes s);
  ok_imprimiveis :
    Forall (fun kv => Js.template_lanca (fst kv) = false) (Js.Map_entries (conexoes s));
  ok_objetos :
    Forall (fun kv => match fst kv with
                      | Js.KRef a _ => (a < objetos s)%nat
                      | _ => True
                      end) (Js.Map_entries (conexoes s));
  ok_abertos :
    Forall (fun kv => exists e, nth_error (sockets s) (snd kv) = Some e /\ e <> CLOSED)
           (Js.Map_entries (conexoes s))
}.

Definition servidor_ok (s : servidor) : Prop :=
  banco_ok (pool s) /\ registro_ok s.

(** The entries of [conexoes] whose socket is [ws]. *)
Definition registradas (ws : socket) (m : Js.MapData socket) : list Js.chave :=
  map fst (filter (fun kv => Nat.eqb (snd kv) ws) (Js.Map_entries m)).

(** [m] with every entry of [ws] emptied. *)
Definition sem_socket (ws : socket) (m : Js.MapData socket) : Js.MapData socket :=
  map (fun e => match e with
                | Some (k, s) => if Nat.eqb s ws then None else Some (k, s)
                | None => None
                end) m.

(** ** Vocabulary of the statements *)

(** The state after [conexoes.set(k, ws)] in the message callback. *)
Definition registrado (k : Js.chave) (ws : socket) (s : servidor) : servidor :=
  mk_servidor (pool s) (Js.Map_set k ws (conexoes s)) (sockets s) (enviados s)
              (S (objetos s)).

(** [m] is a stored message between [a] and [b], in either direction. *)
Definition trocada (db : banco) (a b : Z) (m : Mensagem.t) : Prop :=
  In m (mensagens db) /\
  ((Mensagem.remetente_id m = a /\ Mensagem.destinatario_id m = b) \/
   (Mensagem.remetente_id m = b /\ Mensagem.destinatario_id m = a)).

(** [n] is the display name of the user [i]. *)
Definition nome_do_usuario (db : banco) (i : Z) (n : string) : Prop :=
  exists u, In u (usuarios db) /\ Usuario.id u = i /\ Usuario.nome u = n.


(** ** A reader of JSON texts

    One behaviour [JSON.parse] can have, used to run the callbacks on
    frames: the JSON grammar, read from the bytes of the frame. A number is
    read as the rational its literal denotes (the double, when the literal
    denotes one) or as an infinity past the range of doubles; a string is
    kept as its bytes, an escape [\uXXXX] as the UTF-8 bytes of that code
    unit; a repeated property name keeps its last value. [None] is the
    SyntaxError. *)

Module Json.

Definition aspas : ascii := "034"%char.

Definition barra_invertida : ascii := "092"%char.

Definition branco (c : ascii) : bool :=
  Ascii.eqb c " "%char || Ascii.eqb c "009"%char
  || Ascii.eqb c "010"%char || Ascii.eqb c "013"%char.

Fixpoint salta (s : string) : string :=
  match s with
  | String c r => if branco c then salta r else s
  | EmptyString => s
  end.

Definition digito (c : ascii) : option Z :=
  let n := Z.of_N (N_of_ascii c) in
  if (48 <=? n) && (n <=? 57) then Some (n - 48) else None.

Definition hexadecimal (c : ascii) : option Z :=
  let n := Z.of_N (N_of_ascii c) in
  if (48 <=? n) && (n <=? 57) then Some (n - 48)
  else if (65 <=? n) && (n <=? 70) then Some (n - 55)
  else if (97 <=? n) && (n <=? 102) then Some (n - 87)
  else None.

Definition byte (n : Z) : ascii := ascii_of_N (Z.to_N n).

(** The UTF-8 bytes of a 16-bit code unit, in front of [r]. *)
Definition utf8 (u : Z) (r : string) : string :=
  if u <? 128 then String (byte u) r
  else if u <? 2048 then String (byte (192 + u / 64)) (String (byte (128 + u mod 64)) r)
  else String (byte (224 + u / 4096))
         (String (byte (128 + (u / 64) mod 64)) (String (byte (128 + u mod 64)) r)).

(** The characters of a string after its opening quote, and what follows
    the closing quote. *)
Fixpoint texto (s : string) : option (string * string) :=
  match s with
  | EmptyString => None
  | String c r =>
      if Ascii.eqb c aspas then Some (EmptyString, r)
      else if Ascii.eqb c barra_invertida then
        match r with
        | String e r' =>
            let simples (x : ascii) :=
              match texto r' with
              | Some (t, q) => Some (String x t, q)
              | None => None
              end in
            if Ascii.eqb e aspas then simples aspas
            else if Ascii.eqb e barra_invertida then simples barra_invertida
            else if Ascii.eqb e "/"%char then simples "/"%char
            else if Ascii.eqb e "b"%char then simples "008"%char
            else if Ascii.eqb e "f"%char then simples "012"%char
            else if Ascii.eqb e "n"%char then simples "010"%char
            else if Ascii.eqb e "r"%char then simples "013"%char
            else if Ascii.eqb e "t"%char then simples "009"%char
            else if Ascii.eqb e "u"%char then
              match r' with
              | String h1 (String h2 (String h3 (String h4 r''))) =>
                  match hexadecimal h1, hexadecimal h2, hexadecimal h3, hexadecimal h4,
                        texto r'' with
                  | Some a, Some b, Some c', Some d, Some (t, q) =>
                      Some (utf8 (((a * 16 + b) * 16 + c') * 16 + d) t, q)
                  | _, _, _, _, _ => None
                  end
              | _ => None
              end
            else None
        | EmptyString => None
        end
      else if (N_of_ascii c <? 32)%N then None
      else match texto r with
           | Some (t, q) => Some (String c t, q)
           | None => None
           end
  end.

(** A run of digits: the number read after [acc], how many digits, the rest. *)
Fixpoint digitos (s : string) (acc : Z) (n : Z) : Z * Z * string :=
  match s with
  | String c r =>
      match digito c with
      | Some d => digitos r (acc * 10 + d) (n + 1)
      | None => (acc, n, s)
      end
  | EmptyString => (acc, n, s)
  end.

(** The largest magnitude that still rounds to a finite double. *)
Definition limite_finito : Z := 2 ^ 1024 - 2 ^ 970.

(** The number [mantissa * 10 ^ expoente], [mantissa >= 0]. A literal whose
    decimal order is at least 309 is past every double and is an infinity;
    one whose order is at most -325 is below half the least double and is
    zero; between these the power of ten is computed. *)
Definition decimal (negativo : bool) (mantissa expoente : Z) : Js.numero :=
  if mantissa =? 0 then Js.Finito 0
  else if 309 <=? expoente + Z.log2 mantissa * 3 / 10 then Js.Infinito negativo
  else if expoente + (Z.log2 mantissa + 1) * 31 / 100 + 1 <=? -325 then Js.Finito 0
  else
    let q := if 0 <=? expoente then inject_Z (mantissa * 10 ^ expoente)
             else Qmake mantissa (Z.to_pos (10 ^ (- expoente))) in
    if Qle_bool (inject_Z limite_finito) q then Js.Infinito negativo
    else Js.Finito (if negativo then Qopp q else q).

(** [-? (0 | [1-9][0-9]* ) (. [0-9]+)? ([eE] [+-]? [0-9]+)?] *)
Definition numero (s : string) : option (Js.numero * string) :=
  let (negativo, s1) :=
    match s with
    | String "-"%char r => (true, r)
    | _ => (false, s)
    end in
  let inteiro :=
    match s1 with
    | String "0"%char r => Some (0, r)
    | String c _ =>
        match digito c with
        | Some _ => let '(v, _, r) := digitos s1 0 0 in Some (v, r)
        | None => None
        end
    | EmptyString => None
    end in
  match inteiro with
  | None => None
  | Some (i, s2) =>
      let fracao :=
        match s2 with
        | String "."%char r =>
            let '(v, n, r') := digitos r i 0 in
            if n =? 0 then None else Some (v, n, r')
        | _ => Some (i, 0, s2)
        end in
      match fracao with
      | None => None
      | Some (m, casas, s3) =>
          let expoente (r : string) :=
            let (menos, r1) :=
              match r with
              | String "-"%char r' => (true, r')
              | String "+"%char r' => (false, r')
              | _ => (false, r)
              end in
            let '(v, n, r2) := digitos r1 0 0 in
            if n =? 0 then None
            else Some (decimal negativo m ((if menos then - v else v) - casas), r2) in
          match s3 with
          | String "e"%char r => expoente r
          | String "E"%char r => expoente r
          | _ => Some (decimal negativo m (- casas), s3)
          end
      end
  end.

(** Defining a property: a name that is there already gets the new value. *)
Fixpoint define (nome : string) (v : Js.valor) (props : list (string * Js.valor))
    : list (string * Js.valor) :=
  match props with
  | [] => [(nome, v)]
  | (n, x) :: r => if String.eqb n nome then (n, v) :: r else (n, x) :: define nome v r
  end.

Fixpoint prefixo (p s : string) : option string :=
  match p, s with
  | EmptyString, _ => Some s
  | String a p', String b s' => if Ascii.eqb a b then prefixo p' s' else None
  | String _ _, EmptyString => None
  end.

(** A value, and the text after it. [n] bounds the depth of the calls. *)
Fixpoint valor (n : nat) (s : string) : option (Js.valor * string) :=
  match n with
  | O => None
  | S n' =>
      match salta s with
      | EmptyString => None
      | String c r as s' =>
          if Ascii.eqb c "{"%char then
            match salta r with
            | String "}"%char r' => Some (Js.Obj [], r')
            | r' => membro n' r' []
            end
          else if Ascii.eqb c "["%char then
            match salta r with
            | String "]"%char r' => Some (Js.Arr [], r')
            | r' =>
                match valor n' r' with
                | Some (v, r'') => resto_elementos n' r'' [v]
                | None => None
                end
            end
          else if Ascii.eqb c aspas then
            match texto r with
            | Some (t, r') => Some (Js.Str t, r')
            | None => None
            end
          else if Ascii.eqb c "t"%char then
            option_map (fun r' => (Js.Bool true, r')) (prefixo "true" s')
          else if Ascii.eqb c "f"%char then
            option_map (fun r' => (Js.Bool false, r')) (prefixo "false" s')
          else if Ascii.eqb c "n"%char then
            option_map (fun r' => (Js.Null, r')) (prefixo "null" s')
          else
            match numero s' with
            | Some (x, r') => Some (Js.Num x, r')
            | None => None
            end
      end
  end

with resto_elementos (n : nat) (s : string) (acc : list Js.valor)
    : option (Js.valor * string) :=
  match n with
  | O => None
  | S n' =>
      match salta s with
      | String "]"%char r => Some (Js.Arr (rev acc), r)
      | String ","%char r =>
          match valor n' r with
          | Some (v, r') => resto_elementos n' r' (v :: acc)
          | None => None
          end
      | _ => None
      end
  end

with membro (n : nat) (s : string) (acc : list (string * Js.valor))
    : option (Js.valor * string) :=
  match n with
  | O => None
  | S n' =>
      match salta s with
      | String c r =>
          if Ascii.eqb c aspas then
            match texto r with
            | Some (nome, r') =>
                match salta r' with
                | String ":"%char r'' =>
                    match valor n' r'' with
                    | Some (v, r3) =>
                        match salta r3 with
                        | String "}"%char r4 => Some (Js.Obj (define nome v acc), r4)
                        | String ","%char r4 => membro n' r4 (define nome v acc)
                        | _ => None
                        end
                    | None => None
                    end
                | _ => None
                end
            | None => None
            end
          else None
      | EmptyString => None
      end
  end.

(** The whole text must be one value between blanks. *)
Definition parse (s : string) : option Js.valor :=
  match valor (2 * String.length s + 2) s with
  | Some (v, r) => match salta r with
                   | EmptyString => Some v
                   | _ => None
                   end
  | None => None
  end.

End Json.

(** ** A writer of message rows

    One behaviour [JSON.stringify] can have on a row of [mensagens], used to
    run the dispatcher: the columns in order, integers in decimal, the text
    between quotes with its quotes, backslashes and control characters
    escaped. [enviado_em] is written as its count of microseconds; the
    results do not depend on how the date is spelled. *)

Module Escreve.

Definition algarismo (d : Z) : ascii := ascii_of_N (Z.to_N (48 + d)).

(** The decimal digits of [z > 0] in front of [r]; [n] bounds their number
    (a number has no more decimal digits than bits). *)
Fixpoint positivo (n : nat) (z : Z) (r : string) : string :=
  match n with
  | O => r
  | S n' => if z <? 10 then String (algarismo z) r
            else positivo n' (z / 10) (String (algarismo (z mod 10)) r)
  end.

Definition inteiro (z : Z) : string :=
  if z =? 0 then "0"
  else if z <? 0 then
    String "-"%char (positivo (S (Z.to_nat (Z.log2 (- z)))) (- z) EmptyString)
  else positivo (S (Z.to_nat (Z.log2 z))) z EmptyString.

Definition hexa (d : Z) : ascii :=
  if d <? 10 then ascii_of_N (Z.to_N (48 + d)) else ascii_of_N (Z.to_N (87 + d)).

Fixpoint escapa (s : string) : string :=
  match s with
  | EmptyString => EmptyString
  | String c r =>
      let n := Z.of_N (N_of_ascii c) in
      if Ascii.eqb c Json.aspas then
        String Json.barra_invertida (String Json.aspas (escapa r))
      else if Ascii.eqb c Json.barra_invertida then
        String Json.barra_invertida (String Json.barra_invertida (escapa r))
      else if n <? 32 then
        String Json.barra_invertida
          (String "u"%char (String "0"%char (String "0"%char
             (String (hexa (n / 16)) (String (hexa (n mod 16)) (escapa r))))))
      else String c (escapa r)
  end.

Definition entre_aspas (s : string) : string :=
  String Json.aspas (s ++ String Json.aspas EmptyString)%string.

Definition campo (nome valor : string) : string :=
  (entre_aspas nome ++ ":" ++ valor)%string.

Definition stringify (m : Mensagem.t) : string :=
  ("{" ++ campo "id" (inteiro (Mensagem.id m)) ++ ","
       ++ campo "remetente_id" (inteiro (Mensagem.remetente_id m)) ++ ","
       ++ campo "destinatario_id" (inteiro (Mensagem.destinatario_id m)) ++ ","
       ++ campo "texto" (entre_aspas (escapa (Mensagem.texto m))) ++ ","
       ++ campo "enviado_em" (inteiro (Mensagem.enviado_em m)) ++ "}")%string.

End Escreve.

(** ** Scenarios

    Runs of the process on the reader and the writer above, from an empty
    store. *)

Module Cenario.

Definition aspas : string := String Json.aspas EmptyString.

(** The frame [{"tipo":"registrar","usuario_id":<id>}], [id] as written. *)
Definition registrar (id : string) : string :=
  ("{" ++ aspas ++ "tipo" ++ aspas ++ ":" ++ aspas ++ "registrar" ++ aspas ++ ","
       ++ aspas ++ "usuario_id" ++ aspas ++ ":" ++ id ++ "}")%string.

(** The state after the events [es], or the start if they cannot happen. *)
Definition estado (es : list evento) : servidor :=
  match executa_todos Json.parse Escreve.stringify es (inicio None) with
  | Some s => s
  | None => inicio None
  end.

(** Alice, Bob and Carol; Alice writes to Bob, then to Carol. *)
Definition contatos : list evento :=
  [ POST_usuarios 1 (Some "Alice") (Some "555-0001");
    POST_usuarios 2 (Some "Bob") (Some "555-0002");
    POST_usuarios 3 (Some "Carol") (Some "555-0003");
    POST_mensagens 10 (PInt 1) (PInt 2) (Some "oi");
    POST_mensagens 20 (PInt 1) (PInt 3) (Some "ola") ].

(** Alice and Bob write to each other at the same instant. *)
Definition empate : list evento :=
  [ POST_usuarios 1 (Some "Alice") (Some "555-0001");
    POST_usuarios 2 (Some "Bob") (Some "555-0002");
    POST_mensagens 10 (PInt 1) (PInt 2) (Some "a");
    POST_mensagens 10 (PInt 2) (PInt 1) (Some "b") ].

(** Bob's client connects and registers the number 2. *)
Definition bob_conectado : list evento :=
  contatos ++ [ connection; message 0%nat (registrar "2") ].

(** Bob's client connects and registers the string "2". *)
Definition bob_conectado_com_texto : list evento :=
  contatos ++ [ connection; message 0%nat (registrar (aspas ++ "2" ++ aspas)) ].

(** A client registers under two ids, another client under one. *)
Definition duas_chaves : list evento :=
  [ connection; message 0%nat (registrar "2"); message 0%nat (registrar "3");
    connection; message 1%nat (registrar "1") ].

Definition banco_contatos : banco := pool (estado contatos).

Definition banco_empate : banco := pool (estado empate).

Definition oi : Mensagem.t := Mensagem.mk 1 1 2 "oi" 10.

Definition ola : Mensagem.t := Mensagem.mk 2 1 3 "ola" 20.

Definition a : Mensagem.t := Mensagem.mk 1 1 2 "a" 10.

Definition b : Mensagem.t := Mensagem.mk 2 2 1 "b" 10.

End Cenario.

(** ** More scenarios *)

Module Reconexao.

(** Bob's client is registered and a second client has connected. *)
Definition dois_sockets : list evento :=
  Cenario.bob_conectado ++ [ connection ].

(** Alice writes to Bob while his client is registered. *)
Definition entregue : list evento :=
  Cenario.bob_conectado ++ [ POST_mensagens 30 (PInt 1) (PInt 2) (Some "tudo bem?") ].

Definition tudo_bem : Mensagem.t := Mensagem.mk 3 1 2 "tudo bem?" 30.

End Reconexao.

(* ================================================================== *)
(** * Part II. Properties                                              *)
(* ================================================================== *)

(** ** ORDER BY and DISTINCT ON *)

Section OrderBy.

Context {A : Type} (le : A -> A -> bool).

Hypothesis le_total : forall x y, le x y = false -> le y x = true.
Hypothesis le_trans : forall x y z, le x y = true -> le y z = true -> le x z = true.

Lemma insere_perm (x : A) (l : list A) : Permutation (x :: l) (insere le x l).
Proof.
  induction l as [|y r IH]; simpl.
  - apply Permutation_refl.
  - destruct (le x y).
    + apply Permutation_refl.
    + eapply perm_trans; [apply perm_swap|]. now apply perm_skip.
Qed.

Lemma ordena_perm (l : list A) : Permutation l (ordena le l).
Proof.
  induction l as [|x r IH]; simpl.
  - apply perm_nil.
  - eapply perm_trans; [apply perm_skip, IH|]. apply insere_perm.
Qed.

Lemma insere_ordenada (x : A) (l : list A) :
  StronglySorted (fun a b => le a b = true) l ->
  StronglySorted (fun a b => le a b = true) (insere le x l).
Proof.
  induction 1 as [|y r Hr IH Hy]; simpl.
  - repeat constructor.
  - destruct (le x y) eqn:Hxy.
    + constructor.
      * now constructor.
      * constructor; [exact Hxy|].
        eapply Forall_impl; [|exact Hy]. intros z Hz. eapply le_trans; eassumption.
    + constructor; [exact IH|].
      eapply Permutation_Forall; [apply insere_perm|].
      constructor; [now apply le_total | exact Hy].
Qed.

Lemma ordena_ordenada (l : list A) :
  StronglySorted (fun a b => le a b = true) (ordena le l).
Proof.
  induction l as [|x r IH]; simpl.
  - constructor.
  - now apply insere_ordenada.
Qed.

(** The insertion sort is one of the executions [ORDER BY] allows. *)
Lemma ordena_order_by (l : list A) : order_by le l (ordena le l).
Proof. split; [apply ordena_perm | apply ordena_ordenada]. Qed.

End OrderBy.

Section OrderByFacts.

Context {A : Type}.

Lemma order_by_In (le : A -> A -> bool) (l s : list A) (x : A) :
  order_by le l s -> (In x s <-> In x l).
Proof.
  intros [Hp _]. split; intro H.
  - eapply Permutation_in; [apply Permutation_sym, Hp | exact H].
  - eapply Permutation_in; [exact Hp | exact H].
Qed.

(** Ordering rows that were ordered before forgets the first order. *)
Lemma order_by_apos (le1 le2 : A -> A -> bool) (l s1 s2 : list A) :
  order_by le1 l s1 -> order_by le2 s1 s2 -> order_by le2 l s2.
Proof.
  intros [Hp1 _] [Hp2 Hs2]. split; [|exact Hs2]. eapply perm_trans; eassumption.
Qed.

(** Where no two different rows tie, [ORDER BY] has one result. *)
Lemma order_by_unica (le : A -> A -> bool) (l s1 s2 : list A) :
  (forall x y, In x l -> In y l -> le x y = true -> le y x = true -> x = y) ->
  order_by le l s1 -> order_by le l s2 -> s1 = s2.
Proof.
  intros Hanti [Hp1 Hs1] [Hp2 Hs2].
  assert (Hp : Permutation s1 s2)
    by (eapply perm_trans; [apply Permutation_sym, Hp1 | exact Hp2]).
  assert (Hin : forall x, In x s1 -> In x l)
    by (intros x Hx; eapply Permutation_in; [apply Permutation_sym, Hp1 | exact Hx]).
  clear Hp1 Hp2. revert s2 Hs2 Hp Hin.
  induction Hs1 as [|a r1 Hr1 IH Ha]; intros s2 Hs2 Hp Hin.
  - now apply Permutation_nil in Hp.
  - destruct s2 as [|b r2].
    + apply Permutation_sym, Permutation_nil in Hp. discriminate.
    + inversion Hs2 as [|? ? Hr2 Hb]; subst.
      assert (Hab : a = b).
      { assert (Ha2 : In a (b :: r2))
          by (eapply Permutation_in; [exact Hp | now left]).
        assert (Hb1 : In b (a :: r1))
          by (eapply Permutation_in; [apply Permutation_sym, Hp | now left]).
        destruct Ha2 as [->|Ha2]; [reflexivity|].
        destruct Hb1 as [->|Hb1]; [reflexivity|].
        apply Hanti.
        - apply Hin. now left.
        - apply Hin. now right.
        - rewrite Forall_forall in Ha. now apply Ha.
        - rewrite Forall_forall in Hb. now apply Hb. }
      subst b. f_equal. apply IH.
      * exact Hr2.
      * eapply Permutation_cons_inv. exact Hp.
      * intros x Hx. apply Hin. now right.
Qed.

End OrderByFacts.

Section DistinctOn.

Context {A : Type} (chave : A -> Z) (le : A -> A -> bool).

Hypothesis le_chave : forall x y, le x y = true -> chave x <= chave y.
Hypothesis le_refl : forall x, le x x = true.

Abbreviation mesmo := (fun x y : A => chave x =? chave y).
Abbreviation ordenada := (StronglySorted (fun x y => le x y = true)).

Lemma ordenada_sem_segundo (a x : A) (l : list A) :
  ordenada (a :: x :: l) -> ordenada (a :: l).
Proof.
  intro H. inversion H as [|? ? Hxl Ha]; subst.
  inversion Hxl; subst. inversion Ha; subst. now constructor.
Qed.

(** A row kept after [anterior] is the first row of its key, and its key
    is above the key of [anterior]. *)
Lemma distinct_apos_primeira (l : list A) : forall anterior r,
  ordenada (anterior :: l) ->
  In r (distinct_apos mesmo anterior l) ->
  chave anterior < chave r /\
  exists pre post, l = pre ++ r :: post /\ Forall (fun x => chave x < chave r) pre.
Proof.
  induction l as [|x l IH]; intros anterior r Hs Hin; simpl in Hin.
  - contradiction.
  - assert (Hax : chave anterior <= chave x).
    { apply le_chave. inversion Hs as [|? ? _ Ha]; subst. now inversion Ha. }
    destruct (chave anterior =? chave x) eqn:E.
    + apply Z.eqb_eq in E.
      destruct (IH anterior r (ordenada_sem_segundo _ _ _ Hs) Hin)
        as [Hlt (pre & post & -> & Hpre)].
      split; [exact Hlt|]. exists (x :: pre), post. split; [reflexivity|].
      constructor; [lia | exact Hpre].
    + apply Z.eqb_neq in E. destruct Hin as [<-|Hin].
      * split; [lia|]. now exists [], l.
      * assert (Hxl : ordenada (x :: l)) by now inversion Hs.
        destruct (IH x r Hxl Hin) as [Hlt (pre & post & -> & Hpre)].
        split; [lia|]. exists (x :: pre), post. split; [reflexivity|].
        constructor; [exact Hlt | exact Hpre].
Qed.

Lemma distinct_on_primeira (l : list A) (r : A) :
  ordenada l -> In r (distinct_on mesmo l) ->
  exists pre post, l = pre ++ r :: post /\ Forall (fun x => chave x < chave r) pre.
Proof.
  destruct l as [|x l]; simpl; intros Hs Hin.
  - contradiction.
  - destruct Hin as [<-|Hin].
    + now exists [], l.
    + destruct (distinct_apos_primeira l x r Hs Hin) as [Hlt (pre & post & -> & Hpre)].
      exists (x :: pre), post. split; [reflexivity|]. now constructor.
Qed.

Lemma distinct_on_In (l : list A) (r : A) :
  ordenada l -> In r (distinct_on mesmo l) -> In r l.
Proof.
  intros Hs Hin. destruct (distinct_on_primeira l r Hs Hin) as (pre & post & -> & _).
  apply in_or_app. right. now left.
Qed.

(** The row kept for a key stands, in the order, before every row of that key. *)
Lemma distinct_on_antes (l : list A) (r x : A) :
  ordenada l -> In r (distinct_on mesmo l) -> In x l -> chave x = chave r ->
  le r x = true.
Proof.
  intros Hs Hin Hx Hk.
  destruct (distinct_on_primeira l r Hs Hin) as (pre & post & -> & Hpre).
  apply in_app_or in Hx. destruct Hx as [Hx|[<-|Hx]].
  - rewrite Forall_forall in Hpre. specialize (Hpre x Hx). lia.
  - apply le_refl.
  - clear Hpre Hin. induction pre as [|p pre IH]; simpl in Hs.
    + inversion Hs as [|? ? _ Hr]; subst. rewrite Forall_forall in Hr. now apply Hr.
    + apply IH. now inversion Hs.
Qed.

Lemma distinct_apos_cobre (l : list A) : forall anterior x,
  In x l -> chave x <> chave anterior ->
  exists r, In r (distinct_apos mesmo anterior l) /\ chave r = chave x.
Proof.
  induction l as [|y l IH]; intros anterior x Hx Hne; simpl.
  - contradiction.
  - destruct (chave anterior =? chave y) eqn:E.
    + apply Z.eqb_eq in E. destruct Hx as [->|Hx]; [congruence|]. now apply IH.
    + destruct Hx as [->|Hx].
      * exists x. split; [now left | reflexivity].
      * destruct (Z.eq_dec (chave x) (chave y)) as [Hxy|Hxy].
        -- exists y. split; [now left | now symmetry].
        -- destruct (IH y x Hx Hxy) as (r & Hr & Hk). exists r. split; [now right | exact Hk].
Qed.

(** Every key of the input has a row in the output. *)
Lemma distinct_on_cobre (l : list A) (x : A) :
  In x l -> exists r, In r (distinct_on mesmo l) /\ chave r = chave x.
Proof.
  destruct l as [|y l]; simpl; intros Hx.
  - contradiction.
  - destruct Hx as [->|Hx].
    + exists x. split; [now left | reflexivity].
    + destruct (Z.eq_dec (chave x) (chave y)) as [Hxy|Hxy].
      * exists y. split; [now left | now symmetry].
      * destruct (distinct_apos_cobre l y x Hx Hxy) as (r & Hr & Hk).
        exists r. split; [now right | exact Hk].
Qed.

Lemma distinct_apos_crescente (l : list A) : forall anterior,
  ordenada (anterior :: l) ->
  StronglySorted (fun a b => chave a < chave b)
    (anterior :: distinct_apos mesmo anterior l).
Proof.
  induction l as [|x l IH]; intros anterior Hs; simpl.
  - repeat constructor.
  - assert (Hax : chave anterior <= chave x).
    { apply le_chave. inversion Hs as [|? ? _ Ha]; subst. now inversion Ha. }
    destruct (chave anterior =? chave x) eqn:E.
    + apply IH. eapply ordenada_sem_segundo. exact Hs.
    + apply Z.eqb_neq in E.
      assert (Hxl : ordenada (x :: l)) by now inversion Hs.
      specialize (IH x Hxl). constructor; [exact IH|].
      inversion IH as [|? ? _ Hx]; subst.
      constructor; [lia|]. eapply Forall_impl; [|exact Hx]. simpl. intros; lia.
Qed.

(** The output has one row per key, in ascending order of the key. *)
Lemma distinct_on_crescente (l : list A) :
  ordenada l ->
  StronglySorted (fun a b => chave a < chave b) (distinct_on mesmo l).
Proof.
  destruct l as [|x l]; simpl; intro Hs.
  - constructor.
  - now apply distinct_apos_crescente.
Qed.

End DistinctOn.

Lemma crescente_NoDup {A : Type} (chave : A -> Z) (l : list A) :
  StronglySorted (fun a b => chave a < chave b) l -> NoDup (map chave l).
Proof.
  induction 1 as [|a l Hl IH Ha]; simpl; constructor; [|exact IH].
  rewrite in_map_iff. intros (x & Hk & Hx).
  rewrite Forall_forall in Ha. specialize (Ha x Hx). lia.
Qed.

(** ** The store *)

Ltac abre_bind :=
  repeat match goal with
  | H : bind ?m _ = _ |- _ =>
      let E := fresh "E" in destruct m eqn:E; simpl in H; [discriminate|]
  | H : ret _ = inr _ |- _ => injection H as H
  | H : ret _ = inl _ |- _ => discriminate H
  | H : falha _ = inr _ |- _ => discriminate H
  end.

Lemma exige_inr (b : bool) (e : erro) (u : unit) : exige b e = inr u -> b = true.
Proof. destruct b; [reflexivity | discriminate]. Qed.

Lemma not_null_inr {A : Type} (v : option A) (a : A) : not_null v = inr a -> v = Some a.
Proof. destruct v; simpl; [intros [= ->]; reflexivity | discriminate]. Qed.

Lemma length_substring_le (n : nat) : forall s, (String.length (substring 0 n s) <= n)%nat.
Proof.
  induction n as [|n IH]; intros [|c s]; simpl; try lia.
  specialize (IH s). lia.
Qed.

(** A value stored in a [VARCHAR(n)] column has at most [n] characters. *)
Lemma varchar_length (n : nat) (v : option string) (t : string) :
  varchar n v = inr (Some t) -> (String.length t <= n)%nat.
Proof.
  destruct v as [s|]; simpl; [|discriminate].
  destruct (String.length s <=? n)%nat eqn:E.
  - intros [= <-]. now apply Nat.leb_le.
  - destruct (so_espacos _); [|discriminate]. intros [= <-]. apply length_substring_le.
Qed.

(** A value that fits is stored as it is. *)
Lemma varchar_cabe (n : nat) (s : string) :
  (String.length s <= n)%nat -> varchar n (Some s) = inr (Some s).
Proof. intro H. simpl. apply Nat.leb_le in H. now rewrite H. Qed.

Lemma existsb_id_false (i : Z) (us : list Usuario.t) :
  existsb (fun u => Usuario.id u =? i) us = false <-> ~ In i (map Usuario.id us).
Proof.
  induction us as [|u us IH]; simpl.
  - split; [tauto | reflexivity].
  - rewrite orb_false_iff, IH, Z.eqb_neq. tauto.
Qed.

Lemma existe_usuario_In (db : banco) (i : Z) :
  existe_usuario db i = true <-> In i (map Usuario.id (usuarios db)).
Proof.
  unfold existe_usuario. induction (usuarios db) as [|u us IH]; simpl.
  - split; [discriminate | tauto].
  - rewrite orb_true_iff, IH, Z.eqb_eq. tauto.
Qed.

Lemma existsb_telefone_false (t : string) (us : list Usuario.t) :
  existsb (fun u => String.eqb (Usuario.telefone u) t) us = false <->
  ~ In t (map Usuario.telefone us).
Proof.
  induction us as [|u us IH]; simpl.
  - split; [tauto | reflexivity].
  - rewrite orb_false_iff, IH, String.eqb_neq. tauto.
Qed.

Lemma existsb_mensagem_id_false (i : Z) (ms : list Mensagem.t) :
  existsb (fun m => Mensagem.id m =? i) ms = false <-> ~ In i (map Mensagem.id ms).
Proof.
  induction ms as [|m ms IH]; simpl.
  - split; [tauto | reflexivity].
  - rewrite orb_false_iff, IH, Z.eqb_neq. tauto.
Qed.

(** *** INSERT INTO usuarios *)

Lemma insert_usuarios_linha_inr agora nome telefone db novo_id u :
  insert_usuarios_linha agora nome telefone db novo_id = inr u ->
  exists n t,
    varchar 100 nome = inr (Some n) /\ varchar 20 telefone = inr (Some t) /\
    ~ In novo_id (map Usuario.id (usuarios db)) /\
    ~ In t (map Usuario.telefone (usuarios db)) /\
    u = Usuario.mk novo_id n t agora.
Proof.
  unfold insert_usuarios_linha. intro H. abre_bind.
  apply not_null_inr in E1, E2. subst.
  apply exige_inr, negb_true_iff in E3, E4.
  apply existsb_id_false in E3. apply existsb_telefone_false in E4.
  eauto 10.
Qed.

(** A handle that is stored already makes the statement fail. *)
Lemma insert_usuarios_linha_duplicado agora nome telefone db novo_id t :
  varchar 20 telefone = inr (Some t) ->
  In t (map Usuario.telefone (usuarios db)) ->
  exists e, insert_usuarios_linha agora nome telefone db novo_id = inl e.
Proof.
  intros Ht Hin.
  destruct (insert_usuarios_linha agora nome telefone db novo_id) as [e|u] eqn:E.
  - now exists e.
  - apply insert_usuarios_linha_inr in E.
    destruct E as (n & t' & _ & Ht' & _ & Hnot & _). congruence.
Qed.

Lemma insert_usuarios_inr agora nome telefone db db' u :
  insert_usuarios agora nome telefone db = (db', inr u) ->
  usuarios_id_seq db < INT_MAX /\
  Usuario.id u = usuarios_id_seq db + 1 /\
  Usuario.criado_em u = agora /\
  varchar 100 nome = inr (Some (Usuario.nome u)) /\
  varchar 20 telefone = inr (Some (Usuario.telefone u)) /\
  ~ In (Usuario.id u) (map Usuario.id (usuarios db)) /\
  ~ In (Usuario.telefone u) (map Usuario.telefone (usuarios db)) /\
  db' = mk_banco (usuarios db ++ [u]) (mensagens db) (Usuario.id u) (mensagens_id_seq db).
Proof.
  unfold insert_usuarios, nextval.
  destruct (usuarios_id_seq db <? INT_MAX) eqn:Hseq; simpl; [|discriminate].
  apply Z.ltb_lt in Hseq.
  destruct (insert_usuarios_linha _ _ _ _ _) as [e|u'] eqn:E; [discriminate|].
  intros [= <- <-].
  apply insert_usuarios_linha_inr in E. destruct E as (n & t & Hn & Ht & Hid & Htel & ->).
  simpl. repeat split; assumption.
Qed.

(** A failed INSERT leaves both tables as they were. *)
Lemma insert_usuarios_inl agora nome telefone db db' e :
  insert_usuarios agora nome telefone db = (db', inl e) ->
  usuarios db' = usuarios db /\ mensagens db' = mensagens db /\
  mensagens_id_seq db' = mensagens_id_seq db /\
  usuarios_id_seq db <= usuarios_id_seq db'.
Proof.
  unfold insert_usuarios, nextval.
  destruct (usuarios_id_seq db <? INT_MAX) eqn:Hseq; simpl.
  - destruct (insert_usuarios_linha _ _ _ _ _); intros [= <- ?]; simpl.
    repeat split; lia.
  - intros [= <- ?]. repeat split; lia.
Qed.

Lemma Forall_snoc {A : Type} (P : A -> Prop) (l : list A) (x : A) :
  Forall P l -> P x -> Forall P (l ++ [x]).
Proof. intros. apply Forall_app. split; [assumption | now constructor]. Qed.

Lemma NoDup_snoc {A : Type} (l : list A) (x : A) :
  NoDup l -> ~ In x l -> NoDup (l ++ [x]).
Proof.
  intros Hl Hx. apply NoDup_app.
  - exact Hl.
  - constructor; [simpl; tauto | constructor].
  - intros a Ha [<-|[]]. contradiction.
Qed.

Lemma insert_usuarios_ok agora nome telefone db :
  banco_ok db -> banco_ok (fst (insert_usuarios agora nome telefone db)).
Proof.
  intros [H1 H2 L3 H3 H4 H5 L6 H6 H7 H8].
  destruct (insert_usuarios agora nome telefone db) as [db' [e|u]] eqn:E; simpl.
  - pose proof E as E'. apply insert_usuarios_inl in E. destruct E as (Eu & Em & Es & Hs).
    assert (Hlim : usuarios_id_seq db' <= INT_MAX).
    { revert E'. unfold insert_usuarios, nextval.
      destruct (usuarios_id_seq db <? INT_MAX) eqn:Hseq; simpl.
      - apply Z.ltb_lt in Hseq.
        destruct (insert_usuarios_linha _ _ _ _ _); intros [= <- ?]; simpl; lia.
      - intros [= <- ?]. lia. }
    constructor; rewrite ?Eu, ?Em, ?Es; try assumption; [lia|].
    eapply Forall_impl; [|exact H3]. simpl. intros; lia.
  - apply insert_usuarios_inr in E.
    destruct E as (Hlim & Hid & _ & Hn & Ht & Hnid & Hntel & ->).
    constructor; simpl.
    + rewrite map_app. now apply NoDup_snoc.
    + rewrite map_app. now apply NoDup_snoc.
    + lia.
    + apply Forall_snoc; [|lia]. eapply Forall_impl; [|exact H3]. simpl. intros; lia.
    + apply Forall_snoc; [exact H4|].
      split; eapply varchar_length; eassumption.
    + exact H5.
    + exact L6.
    + exact H6.
    + eapply Forall_impl; [|exact H7]. simpl. intros m Hm.
      rewrite map_app. apply in_or_app. now left.
    + eapply Forall_impl; [|exact H8]. simpl. intros m Hm.
      rewrite map_app. apply in_or_app. now left.
Qed.

(** *** INSERT INTO mensagens *)

Lemma bind_int_inr (p : parametro) (v : option Z) :
  bind_int p = inr v ->
  (p = PNulo /\ v = None) \/ (exists z, p = PInt z /\ v = Some z /\ INT_MIN <= z <= INT_MAX).
Proof.
  destruct p as [|z|]; simpl; [intros [= <-]; now left | | discriminate].
  destruct ((INT_MIN <=? z) && (z <=? INT_MAX)) eqn:E; [|discriminate].
  intros [= <-]. right. exists z. apply andb_true_iff in E. destruct E as [E1 E2].
  apply Z.leb_le in E1, E2. repeat split; [exact E1 | exact E2].
Qed.

Lemma insert_mensagens_linha_inr agora r d texto db novo_id m :
  insert_mensagens_linha agora r d texto db novo_id = inr m ->
  exists a b x,
    r = Some a /\ d = Some b /\ texto = Some x /\
    ~ In novo_id (map Mensagem.id (mensagens db)) /\
    In a (map Usuario.id (usuarios db)) /\ In b (map Usuario.id (usuarios db)) /\
    m = Mensagem.mk novo_id a b x agora.
Proof.
  unfold insert_mensagens_linha. intro H. abre_bind.
  apply not_null_inr in E, E0, E1. subst.
  apply exige_inr in E2, E3, E4. apply negb_true_iff in E2.
  apply existsb_mensagem_id_false in E2.
  apply existe_usuario_In in E3, E4. eauto 12.
Qed.

Lemma insert_mensagens_inr agora r d texto db db' m :
  insert_mensagens agora r d texto db = (db', inr m) ->
  r = PInt (Mensagem.remetente_id m) /\ d = PInt (Mensagem.destinatario_id m) /\
  texto = Some (Mensagem.texto m) /\
  In (Mensagem.remetente_id m) (map Usuario.id (usuarios db)) /\
  In (Mensagem.destinatario_id m) (map Usuario.id (usuarios db)) /\
  mensagens_id_seq db < INT_MAX /\
  Mensagem.id m = mensagens_id_seq db + 1 /\
  Mensagem.enviado_em m = agora /\
  ~ In (Mensagem.id m) (map Mensagem.id (mensagens db)) /\
  db' = mk_banco (usuarios db) (mensagens db ++ [m]) (usuarios_id_seq db) (Mensagem.id m).
Proof.
  unfold insert_mensagens, nextval.
  destruct (bind_int r) as [|vr] eqn:Er; [discriminate|].
  destruct (bind_int d) as [|vd] eqn:Ed; [discriminate|].
  destruct (mensagens_id_seq db <? INT_MAX) eqn:Hseq; simpl; [|discriminate].
  apply Z.ltb_lt in Hseq.
  destruct (insert_mensagens_linha _ _ _ _ _ _) as [e|m'] eqn:E; [discriminate|].
  intros [= <- <-].
  apply insert_mensagens_linha_inr in E.
  destruct E as (a & b & x & -> & -> & -> & Hid & Ha & Hb & ->). simpl.
  apply bind_int_inr in Er, Ed.
  destruct Er as [[_ [=]]|(z1 & -> & [= <-] & _)].
  destruct Ed as [[_ [=]]|(z2 & -> & [= <-] & _)].
  repeat split; assumption.
Qed.

Lemma insert_mensagens_inl agora r d texto db db' e :
  insert_mensagens agora r d texto db = (db', inl e) ->
  usuarios db' = usuarios db /\ mensagens db' = mensagens db /\
  usuarios_id_seq db' = usuarios_id_seq db /\
  mensagens_id_seq db <= mensagens_id_seq db' <= Z.max (mensagens_id_seq db) INT_MAX.
Proof.
  unfold insert_mensagens, nextval.
  destruct (bind_int r); [intros [= <- _]; repeat split; lia|].
  destruct (bind_int d); [intros [= <- _]; repeat split; lia|].
  destruct (mensagens_id_seq db <? INT_MAX) eqn:Hseq; simpl.
  - apply Z.ltb_lt in Hseq.
    destruct (insert_mensagens_linha _ _ _ _ _ _); intros [= <- ?]; simpl.
    repeat split; lia.
  - intros [= <- ?]. repeat split; lia.
Qed.


Lemma insert_mensagens_ok agora r d texto db :
  banco_ok db -> banco_ok (fst (insert_mensagens agora r d texto db)).
Proof.
  intros [H1 H2 L3 H3 H4 H5 L6 H6 H7 H8].
  destruct (insert_mensagens agora r d texto db) as [db' [e|m]] eqn:E; simpl.
  - apply insert_mensagens_inl in E. destruct E as (Eu & Em & Es & Hs).
    constructor; rewrite ?Eu, ?Em, ?Es; try assumption; [lia|].
    eapply Forall_impl; [|exact H6]. simpl. intros; lia.
  - apply insert_mensagens_inr in E.
    destruct E as (_ & _ & _ & Ha & Hb & Hlim & Hid & _ & Hnid & ->).
    constructor; simpl; try assumption.
    + rewrite map_app. now apply NoDup_snoc.
    + lia.
    + apply Forall_snoc; [|lia]. eapply Forall_impl; [|exact H6]. simpl. intros; lia.
    + now apply Forall_snoc.
    + now apply Forall_snoc.
Qed.

Lemma banco_vazio_ok : banco_ok banco_vazio.
Proof.
  constructor; simpl; try constructor; unfold INT_MAX; lia.
Qed.

(** ** The queries *)

Lemma In_juncao (db : banco) (m : Mensagem.t) (u1 u2 : Usuario.t) :
  In (m, u1, u2) (juncao db) <->
  In m (mensagens db) /\ In u1 (usuarios db) /\ In u2 (usuarios db) /\
  Mensagem.remetente_id m = Usuario.id u1 /\ Mensagem.destinatario_id m = Usuario.id u2.
Proof.
  unfold juncao. rewrite in_flat_map. split.
  - intros (m' & Hm & H). rewrite in_flat_map in H. destruct H as (u1' & H1 & H).
    rewrite in_map_iff in H. destruct H as (u2' & [= -> -> ->] & H2).
    rewrite filter_In in H1, H2. rewrite Z.eqb_eq in H1, H2. tauto.
  - intros (Hm & H1 & H2 & E1 & E2). exists m. split; [exact Hm|].
    rewrite in_flat_map. exists u1. split.
    + rewrite filter_In, Z.eqb_eq. tauto.
    + rewrite in_map_iff. exists u2. split; [reflexivity|].
      rewrite filter_In, Z.eqb_eq. tauto.
Qed.

(** With a primary key on [id], a join condition selects one user row. *)
Lemma filter_id_unico (us : list Usuario.t) (i : Z) :
  NoDup (map Usuario.id us) -> In i (map Usuario.id us) ->
  exists u, filter (fun u' => i =? Usuario.id u') us = [u].
Proof.
  induction us as [|u us IH]; simpl; intros Hnd Hin; [contradiction|].
  inversion Hnd as [|? ? Hnot Hnd']; subst.
  destruct (i =? Usuario.id u) eqn:E.
  - apply Z.eqb_eq in E. subst i. exists u. f_equal.
    clear IH Hin Hnd Hnd'. induction us as [|v us IH]; [reflexivity|]. simpl in *.
    destruct (Usuario.id u =? Usuario.id v) eqn:E.
    + apply Z.eqb_eq in E. exfalso. apply Hnot. now left.
    + apply IH. intro H. apply Hnot. now right.
  - apply Z.eqb_neq in E. destruct Hin as [Hin|Hin]; [congruence|]. now apply IH.
Qed.

(** Under the constraints the join has one row per message, in the order
    of the messages. *)
Lemma juncao_mensagens (db : banco) :
  banco_ok db -> map (fun j => fst (fst j)) (juncao db) = mensagens db.
Proof.
  intros Hok. pose proof (fk_remetente db Hok) as Hr.
  pose proof (fk_destinatario db Hok) as Hd. pose proof (pk_usuarios db Hok) as Hpk.
  unfold juncao. induction (mensagens db) as [|m ms IH]; [reflexivity|].
  inversion Hr; inversion Hd; subst. simpl. rewrite map_app, IH by assumption.
  destruct (filter_id_unico (usuarios db) (Mensagem.remetente_id m)) as [u1 ->];
    [assumption..|].
  destruct (filter_id_unico (usuarios db) (Mensagem.destinatario_id m)) as [u2 ->];
    [assumption..|].
  reflexivity.
Qed.

Lemma map_filter_fst {A B : Type} (h : A -> B) (p : B -> bool) (l : list A) :
  map h (filter (fun x => p (h x)) l) = filter p (map h l).
Proof.
  induction l as [|x l IH]; simpl; [reflexivity|].
  destruct (p (h x)); simpl; now rewrite IH.
Qed.

Lemma nome_do_usuario_unico (db : banco) (i : Z) (n1 n2 : string) :
  banco_ok db -> nome_do_usuario db i n1 -> nome_do_usuario db i n2 -> n1 = n2.
Proof.
  intros Hok (u1 & H1 & E1 & <-) (u2 & H2 & E2 & <-).
  pose proof (pk_usuarios db Hok) as Hpk. f_equal.
  revert H1 H2 Hpk. induction (usuarios db) as [|u us IH]; simpl; [contradiction|].
  intros H1 H2 Hpk. inversion Hpk as [|? ? Hnot Hpk']; subst.
  destruct H1 as [->|H1], H2 as [->|H2]; auto.
  - exfalso. apply Hnot. rewrite in_map_iff. exists u2. split; [congruence | assumption].
  - exfalso. apply Hnot. rewrite in_map_iff. exists u1. split; [congruence | assumption].
Qed.

(** *** The list of users *)

Lemma compare_nao_Gt_trans (a : string) : forall b c,
  String.compare a b <> Gt -> String.compare b c <> Gt -> String.compare a c <> Gt.
Proof.
  induction a as [|x a IH]; intros [|y b] [|z c]; simpl; try congruence.
  unfold Ascii.compare.
  destruct (N.compare_spec (N_of_ascii x) (N_of_ascii y)) as [E1|L1|G1];
    destruct (N.compare_spec (N_of_ascii y) (N_of_ascii z)) as [E2|L2|G2];
    destruct (N.compare_spec (N_of_ascii x) (N_of_ascii z)) as [E3|L3|G3];
    try congruence; try (exfalso; lia). apply IH.
Qed.

Lemma por_nome_total (x y : Usuario.t) : por_nome x y = false -> por_nome y x = true.
Proof.
  unfold por_nome. intro H.
  destruct (String.leb_total (Usuario.nome x) (Usuario.nome y)); congruence.
Qed.

Lemma por_nome_trans (x y z : Usuario.t) :
  por_nome x y = true -> por_nome y z = true -> por_nome x z = true.
Proof.
  unfold por_nome, String.leb. intros H1 H2.
  pose proof (compare_nao_Gt_trans (Usuario.nome x) (Usuario.nome y) (Usuario.nome z)) as H.
  destruct (String.compare (Usuario.nome x) (Usuario.nome y)); try discriminate;
    destruct (String.compare (Usuario.nome y) (Usuario.nome z)); try discriminate;
    destruct (String.compare (Usuario.nome x) (Usuario.nome z)); try reflexivity;
    exfalso; apply H; congruence.
Qed.

(** The route has an answer: the one of the reference execution. *)
Lemma executa_select_usuarios_ok (db : banco) :
  select_usuarios db (executa_select_usuarios db).
Proof. apply ordena_order_by; [apply por_nome_total | apply por_nome_trans]. Qed.

(** *** The conversation between two users *)

Lemma entre_trocada (db : banco) (a b : Z) (m : Mensagem.t) :
  In m (mensagens db) /\ entre a b m = true <-> trocada db a b m.
Proof.
  unfold entre, trocada.
  rewrite orb_true_iff, !andb_true_iff, !Z.eqb_eq. tauto.
Qed.

Lemma entre_sim (a b : Z) (m : Mensagem.t) : entre a b m = entre b a m.
Proof. unfold entre. apply orb_comm. Qed.

Lemma linhas_conversa_sim (db : banco) (a b : Z) :
  linhas_conversa db a b = linhas_conversa db b a.
Proof.
  unfold linhas_conversa. f_equal. apply filter_ext.
  intros [[m u1] u2]. apply entre_sim.
Qed.

Lemma linhas_conversa_mensagens (db : banco) (a b : Z) :
  banco_ok db ->
  map Conversa.m (linhas_conversa db a b) = filter (entre a b) (mensagens db).
Proof.
  intro Hok. rewrite <- (juncao_mensagens db Hok). unfold linhas_conversa.
  rewrite map_map, <- map_filter_fst.
  rewrite (filter_ext (fun '(m, _, _) => entre a b m)
                      (fun x => entre a b (fst (fst x)))) by (now intros [[m u1] u2]).
  apply map_ext. now intros [[m u1] u2].
Qed.

Lemma linhas_conversa_nomes (db : banco) (a b : Z) (r : Conversa.t) :
  In r (linhas_conversa db a b) ->
  nome_do_usuario db (Mensagem.remetente_id (Conversa.m r)) (Conversa.remetente_nome r) /\
  nome_do_usuario db (Mensagem.destinatario_id (Conversa.m r)) (Conversa.destinatario_nome r).
Proof.
  unfold linhas_conversa. rewrite in_map_iff.
  intros ([[m u1] u2] & <- & H). apply filter_In in H. destruct H as [H _].
  apply In_juncao in H. destruct H as (_ & H1 & H2 & E1 & E2). simpl.
  split; [exists u1 | exists u2]; auto.
Qed.

Lemma por_enviado_em_asc_total (x y : Conversa.t) :
  por_enviado_em_asc x y = false -> por_enviado_em_asc y x = true.
Proof. unfold por_enviado_em_asc. rewrite Z.leb_gt, Z.leb_le. lia. Qed.

Lemma por_enviado_em_asc_trans (x y z : Conversa.t) :
  por_enviado_em_asc x y = true -> por_enviado_em_asc y z = true ->
  por_enviado_em_asc x z = true.
Proof. unfold por_enviado_em_asc. rewrite !Z.leb_le. lia. Qed.

(** The route has an answer: the one of the reference execution. *)
Lemma executa_select_conversa_ok (db : banco) (a b : Z) :
  select_conversa db a b (executa_select_conversa db a b).
Proof.
  apply ordena_order_by; [apply por_enviado_em_asc_total | apply por_enviado_em_asc_trans].
Qed.

(** A row of the conversation is given by its message. *)
Lemma linha_conversa_unica (db : banco) (a b : Z) (x y : Conversa.t) :
  banco_ok db ->
  In x (linhas_conversa db a b) -> In y (linhas_conversa db a b) ->
  Conversa.m x = Conversa.m y -> x = y.
Proof.
  intros Hok Hx Hy E.
  apply linhas_conversa_nomes in Hx, Hy. destruct Hx as [Hx1 Hx2], Hy as [Hy1 Hy2].
  destruct x as [mx n1 n2], y as [my k1 k2]. simpl in *. subst my. f_equal.
  - eapply nome_do_usuario_unico; eassumption.
  - eapply nome_do_usuario_unico; eassumption.
Qed.

(** C3 (amended). The conversation of [a] with [b] and that of [b] with [a]
    are the same query: the route has an answer, the answers of the two
    calls are the same sequences, and every answer is exactly the stored
    messages whose sender and recipient are [a] and [b] in either order,
    ascending by [enviado_em], each with the names of its sender and of its
    recipient. When no two of these messages carry the same timestamp the
    answer is unique, so both calls return the same sequence. *)
Theorem conversa_simetrica (db : banco) (a b : Z) :
  banco_ok db ->
  select_conversa db a b (executa_select_conversa db a b) /\
  (forall saida, select_conversa db a b saida <-> select_conversa db b a saida) /\
  (forall saida, select_conversa db a b saida ->
     Permutation (map Conversa.m saida) (filter (entre a b) (mensagens db)) /\
     (forall m, In m (map Conversa.m saida) <-> trocada db a b m) /\
     StronglySorted (fun r1 r2 => Mensagem.enviado_em (Conversa.m r1)
                                  <= Mensagem.enviado_em (Conversa.m r2)) saida /\
     Forall (fun r =>
       nome_do_usuario db (Mensagem.remetente_id (Conversa.m r)) (Conversa.remetente_nome r) /\
       nome_do_usuario db (Mensagem.destinatario_id (Conversa.m r))
                       (Conversa.destinatario_nome r)) saida) /\
  ((forall m1 m2, trocada db a b m1 -> trocada db a b m2 ->
                  Mensagem.enviado_em m1 = Mensagem.enviado_em m2 -> m1 = m2) ->
   forall s1 s2, select_conversa db a b s1 -> select_conversa db b a s2 -> s1 = s2).
Proof.
  intro Hok. split; [apply executa_select_conversa_ok|]. split; [|split].
  - intro saida. unfold select_conversa. now rewrite linhas_conversa_sim.
  - intros saida [Hp Hs].
    assert (Hpm : Permutation (map Conversa.m saida) (filter (entre a b) (mensagens db))).
    { rewrite <- (linhas_conversa_mensagens db a b Hok).
      apply Permutation_sym, Permutation_map, Hp. }
    split; [exact Hpm|]. split; [|split].
    + intro m. rewrite <- entre_trocada, <- filter_In. split; intro H.
      * eapply Permutation_in; [exact Hpm | exact H].
      * eapply Permutation_in; [apply Permutation_sym, Hpm | exact H].
    + clear Hp Hpm. induction Hs as [|r l Hl IH Hr]; constructor; [exact IH|].
      eapply Forall_impl; [|exact Hr]. intros r'. unfold por_enviado_em_asc.
      now rewrite Z.leb_le.
    + rewrite Forall_forall. intros r Hr. apply (linhas_conversa_nomes db a b).
      eapply Permutation_in; [apply Permutation_sym, Hp | exact Hr].
  - intros Hdist s1 s2 H1 H2.
    unfold select_conversa in H2. rewrite <- linhas_conversa_sim in H2.
    eapply order_by_unica; [|exact H1|exact H2].
    intros x y Hx Hy Hxy Hyx. unfold por_enviado_em_asc in Hxy, Hyx.
    rewrite Z.leb_le in Hxy, Hyx.
    apply (linha_conversa_unica db a b); try assumption.
    assert (Hm : forall r, In r (linhas_conversa db a b) -> trocada db a b (Conversa.m r)).
    { intros r Hr. apply entre_trocada. rewrite <- filter_In.
      rewrite <- (linhas_conversa_mensagens db a b Hok). now apply in_map. }
    apply Hdist; [now apply Hm | now apply Hm | lia].
Qed.

(** *** The summary of the conversations of a user *)

Lemma outro_usuario_trocada (db : banco) (p1 c : Z) (m : Mensagem.t) :
  In m (mensagens db) /\ envolve p1 m = true /\ outro_usuario p1 m = c <->
  trocada db p1 c m.
Proof.
  unfold envolve, outro_usuario, trocada. rewrite orb_true_iff, !Z.eqb_eq.
  destruct (Mensagem.remetente_id m =? p1) eqn:E;
    [apply Z.eqb_eq in E | apply Z.eqb_neq in E]; split; intros H.
  - tauto.
  - destruct H as [Hm [[H1 H2]|[H1 H2]]]; repeat split; auto; congruence.
  - destruct H as (Hm & [H|H] & Hc); [contradiction|]. split; [exact Hm|]. right. auto.
  - destruct H as [Hm [[H1 H2]|[H1 H2]]]; [contradiction|]. auto.
Qed.

(** Every row of the inner query shows a message exchanged with the user. *)
Lemma linhas_sub_In (db : banco) (p1 : Z) (r : Resumo.t) :
  In r (linhas_sub db p1) ->
  exists m, trocada db p1 (Resumo.outro_usuario_id r) m /\
            Resumo.ultima_mensagem r = Mensagem.texto m /\
            Resumo.enviado_em r = Mensagem.enviado_em m /\
            nome_do_usuario db (Resumo.outro_usuario_id r) (Resumo.outro_usuario_nome r).
Proof.
  unfold linhas_sub. rewrite in_map_iff.
  intros ([[m u1] u2] & <- & H). apply filter_In in H. destruct H as [H He].
  apply In_juncao in H. destruct H as (Hm & H1 & H2 & E1 & E2). simpl.
  exists m. split; [|split; [reflexivity|split; [reflexivity|]]].
  - apply outro_usuario_trocada. auto.
  - unfold outro_usuario, envolve in *.
    destruct (Mensagem.remetente_id m =? p1); [exists u2 | exists u1]; auto.
Qed.

(** Under the constraints every such message has its row. *)
Lemma linhas_sub_cobre (db : banco) (p1 c : Z) (m : Mensagem.t) :
  banco_ok db -> trocada db p1 c m ->
  exists r, In r (linhas_sub db p1) /\ Resumo.outro_usuario_id r = c /\
            Resumo.ultima_mensagem r = Mensagem.texto m /\
            Resumo.enviado_em r = Mensagem.enviado_em m.
Proof.
  intros Hok H. apply outro_usuario_trocada in H. destruct H as (Hm & He & Hc).
  pose proof (fk_remetente db Hok) as Hr. pose proof (fk_destinatario db Hok) as Hd.
  rewrite Forall_forall in Hr, Hd. specialize (Hr m Hm). specialize (Hd m Hm).
  rewrite in_map_iff in Hr, Hd.
  destruct Hr as (u1 & E1 & H1), Hd as (u2 & E2 & H2).
  exists (resumo_de p1 (m, u1, u2)). split; [|simpl; auto].
  unfold linhas_sub. apply in_map. apply filter_In. split; [|exact He].
  apply In_juncao. auto.
Qed.

Lemma externa_chave (x y : Resumo.t) :
  por_outro_usuario_e_enviado_em_desc x y = true ->
  Resumo.outro_usuario_id x <= Resumo.outro_usuario_id y.
Proof.
  unfold por_outro_usuario_e_enviado_em_desc.
  rewrite orb_true_iff, andb_true_iff, Z.ltb_lt, Z.eqb_eq. lia.
Qed.

Lemma externa_refl (x : Resumo.t) : por_outro_usuario_e_enviado_em_desc x x = true.
Proof.
  unfold por_outro_usuario_e_enviado_em_desc.
  rewrite orb_true_iff, andb_true_iff, Z.ltb_lt, Z.eqb_eq, Z.leb_le. lia.
Qed.

Lemma externa_total (x y : Resumo.t) :
  por_outro_usuario_e_enviado_em_desc x y = false ->
  por_outro_usuario_e_enviado_em_desc y x = true.
Proof.
  unfold por_outro_usuario_e_enviado_em_desc.
  rewrite orb_false_iff, andb_false_iff, orb_true_iff, andb_true_iff.
  rewrite !Z.ltb_lt, !Z.ltb_ge, !Z.eqb_eq, !Z.eqb_neq, !Z.leb_le, !Z.leb_gt. lia.
Qed.

Lemma externa_trans (x y z : Resumo.t) :
  por_outro_usuario_e_enviado_em_desc x y = true ->
  por_outro_usuario_e_enviado_em_desc y z = true ->
  por_outro_usuario_e_enviado_em_desc x z = true.
Proof.
  unfold por_outro_usuario_e_enviado_em_desc.
  rewrite !orb_true_iff, !andb_true_iff, !Z.ltb_lt, !Z.eqb_eq, !Z.leb_le. lia.
Qed.

Lemma externa_empate (x y : Resumo.t) :
  por_outro_usuario_e_enviado_em_desc x y = true ->
  Resumo.outro_usuario_id x = Resumo.outro_usuario_id y ->
  Resumo.enviado_em y <= Resumo.enviado_em x.
Proof.
  unfold por_outro_usuario_e_enviado_em_desc.
  rewrite orb_true_iff, andb_true_iff, Z.ltb_lt, Z.eqb_eq, Z.leb_le. lia.
Qed.

Lemma interna_total (x y : Resumo.t) :
  por_enviado_em_desc x y = false -> por_enviado_em_desc y x = true.
Proof. unfold por_enviado_em_desc. rewrite Z.leb_gt, Z.leb_le. lia. Qed.

Lemma interna_trans (x y z : Resumo.t) :
  por_enviado_em_desc x y = true -> por_enviado_em_desc y z = true ->
  por_enviado_em_desc x z = true.
Proof. unfold por_enviado_em_desc. rewrite !Z.leb_le. lia. Qed.

(** The inner [ORDER BY] does not show in the result: the query is the
    outer [ORDER BY] of the inner rows followed by [DISTINCT ON]. *)
Lemma select_conversas_forma (db : banco) (p1 : Z) (saida : list Resumo.t) :
  select_conversas db p1 saida <->
  exists ordenadas,
    order_by por_outro_usuario_e_enviado_em_desc (linhas_sub db p1) ordenadas /\
    saida = distinct_on mesmo_outro_usuario ordenadas.
Proof.
  split.
  - intros (sub & ord & H1 & H2 & ->). exists ord. split; [|reflexivity].
    eapply order_by_apos; eassumption.
  - intros (ord & [Hp Hs] & ->).
    exists (ordena por_enviado_em_desc (linhas_sub db p1)), ord.
    split; [apply ordena_order_by; [apply interna_total | apply interna_trans]|].
    split; [|reflexivity]. split; [|exact Hs].
    eapply perm_trans; [apply Permutation_sym, ordena_perm | exact Hp].
Qed.

(** The route has an answer: the one of the reference execution. *)
Lemma executa_select_conversas_ok (db : banco) (p1 : Z) :
  select_conversas db p1 (executa_select_conversas db p1).
Proof.
  exists (ordena por_enviado_em_desc (linhas_sub db p1)).
  exists (ordena por_outro_usuario_e_enviado_em_desc
            (ordena por_enviado_em_desc (linhas_sub db p1))).
  split; [apply ordena_order_by; [apply interna_total | apply interna_trans]|].
  split; [apply ordena_order_by; [apply externa_total | apply externa_trans]|].
  reflexivity.
Qed.


(** C2. The summary of the user [p1] has exactly one row for every user [c]
    with whom [p1] exchanged a message, and the row shows the text and the
    timestamp of a message between them that no other message between them
    exceeds in [enviado_em], together with the name of [c]. *)
Theorem conversas_uma_linha_por_contato (db : banco) (p1 : Z) (saida : list Resumo.t) :
  banco_ok db ->
  select_conversas db p1 saida ->
  NoDup (map Resumo.outro_usuario_id saida) /\
  (forall c, In c (map Resumo.outro_usuario_id saida) <-> exists m, trocada db p1 c m) /\
  (forall r, In r saida ->
     exists m, trocada db p1 (Resumo.outro_usuario_id r) m /\
               Resumo.ultima_mensagem r = Mensagem.texto m /\
               Resumo.enviado_em r = Mensagem.enviado_em m /\
               (forall m', trocada db p1 (Resumo.outro_usuario_id r) m' ->
                           Mensagem.enviado_em m' <= Mensagem.enviado_em m) /\
               nome_do_usuario db (Resumo.outro_usuario_id r) (Resumo.outro_usuario_nome r)).
Proof.
  intros Hok H. apply select_conversas_forma in H. destruct H as (ord & Hord & ->).
  pose proof Hord as [Hp Hs].
  pose proof (distinct_on_crescente Resumo.outro_usuario_id
                por_outro_usuario_e_enviado_em_desc externa_chave ord Hs) as Hcres.
  assert (Hsub : forall r, In r (distinct_on mesmo_outro_usuario ord) ->
                           In r (linhas_sub db p1)).
  { intros r Hr. apply (order_by_In _ _ _ r Hord).
    now apply (distinct_on_In Resumo.outro_usuario_id
                 por_outro_usuario_e_enviado_em_desc externa_chave). }
  split; [apply crescente_NoDup; exact Hcres|]. split.
  - intro c. rewrite in_map_iff. split.
    + intros (r & <- & Hr). apply Hsub, linhas_sub_In in Hr.
      destruct Hr as (m & Hm & _). now exists m.
    + intros (m & Hm). destruct (linhas_sub_cobre db p1 c m Hok Hm) as (x & Hx & Hc & _).
      apply (order_by_In _ _ _ x Hord) in Hx.
      destruct (distinct_on_cobre Resumo.outro_usuario_id ord x Hx) as (r & Hr & Hk).
      exists r. split; [congruence | exact Hr].
  - intros r Hr. destruct (linhas_sub_In db p1 r (Hsub r Hr)) as (m & Hm & Ht & He & Hn).
    exists m. split; [exact Hm|]. split; [exact Ht|]. split; [exact He|].
    split; [|exact Hn]. intros m' Hm'.
    destruct (linhas_sub_cobre db p1 _ m' Hok Hm') as (x & Hx & Hc & _ & Hex).
    apply (order_by_In _ _ _ x Hord) in Hx.
    pose proof (distinct_on_antes Resumo.outro_usuario_id
                  por_outro_usuario_e_enviado_em_desc externa_chave externa_refl
                  ord r x Hs Hr Hx Hc) as Hle.
    apply externa_empate in Hle; [|now symmetry]. lia.
Qed.

(** C8 (amended). The summary is determined by the stored messages when the
    messages that tie do not differ in what is shown: if any two messages
    that [p1] exchanged with a same user at a same [enviado_em] carry the
    same text, any two executions of the query return the same rows. *)
Theorem conversas_deterministas_sem_empate (db : banco) (p1 : Z) :
  banco_ok db ->
  (forall c m1 m2, trocada db p1 c m1 -> trocada db p1 c m2 ->
                   Mensagem.enviado_em m1 = Mensagem.enviado_em m2 ->
                   Mensagem.texto m1 = Mensagem.texto m2) ->
  forall s1 s2, select_conversas db p1 s1 -> select_conversas db p1 s2 -> s1 = s2.
Proof.
  intros Hok Hemp s1 s2 H1 H2. apply select_conversas_forma in H1, H2.
  destruct H1 as (o1 & Ho1 & ->), H2 as (o2 & Ho2 & ->). f_equal.
  eapply order_by_unica; [|exact Ho1|exact Ho2].
  intros x y Hx Hy Hxy Hyx.
  assert (Hk : Resumo.outro_usuario_id x = Resumo.outro_usuario_id y).
  { apply externa_chave in Hxy, Hyx. lia. }
  assert (He : Resumo.enviado_em x = Resumo.enviado_em y).
  { apply externa_empate in Hxy, Hyx; [lia | now symmetry | exact Hk]. }
  apply linhas_sub_In in Hx, Hy.
  destruct Hx as (mx & Hmx & Htx & Hex & Hnx), Hy as (my & Hmy & Hty & Hey & Hny).
  destruct x as [kx nx tx ex], y as [ky ny ty ey]. simpl in *. subst ky.
  f_equal.
  - eapply nome_do_usuario_unico; eassumption.
  - rewrite Htx, Hty. eapply Hemp; [exact Hmx | exact Hmy | congruence].
  - exact He.
Qed.

(** ** SameValueZero and [Map] *)

Lemma numero_eqb_refl (a : Js.numero) : Js.numero_eqb a a = true.
Proof. destruct a as [q|b|]; simpl; [apply Qeq_bool_refl | now destruct b | reflexivity]. Qed.

Lemma numero_eqb_sym (a b : Js.numero) : Js.numero_eqb a b = Js.numero_eqb b a.
Proof.
  destruct a as [x|x|], b as [y|y|]; simpl; try reflexivity.
  - apply Qeq_bool_comm.
  - now destruct x, y.
Qed.

Lemma numero_eqb_trans (a b c : Js.numero) :
  Js.numero_eqb a b = true -> Js.numero_eqb b c = true -> Js.numero_eqb a c = true.
Proof.
  destruct a as [x|x|], b as [y|y|], c as [z|z|]; simpl; try discriminate; try reflexivity.
  - apply Qeq_bool_trans.
  - destruct x, y, z; simpl; congruence.
Qed.

Lemma same_value_zero_refl (k : Js.chave) : Js.same_value_zero k k = true.
Proof.
  destruct k; simpl; try reflexivity.
  - now destruct b.
  - apply numero_eqb_refl.
  - apply String.eqb_refl.
  - apply Nat.eqb_refl.
Qed.

Lemma same_value_zero_sym (a b : Js.chave) :
  Js.same_value_zero a b = Js.same_value_zero b a.
Proof.
  destruct a, b; simpl; try reflexivity.
  - now destruct b, b0.
  - apply numero_eqb_sym.
  - apply String.eqb_sym.
  - apply Nat.eqb_sym.
Qed.

Lemma same_value_zero_trans (a b c : Js.chave) :
  Js.same_value_zero a b = true -> Js.same_value_zero b c = true ->
  Js.same_value_zero a c = true.
Proof.
  destruct a, b, c; simpl; try discriminate; try reflexivity.
  - destruct b, b0, b1; simpl; congruence.
  - apply numero_eqb_trans.
  - rewrite !String.eqb_eq. congruence.
  - rewrite !Nat.eqb_eq. congruence.
Qed.

(** Keys that are not the same are told apart alike by any third key that
    is the same as one of them. *)
Lemma same_value_zero_false (a b c : Js.chave) :
  Js.same_value_zero a b = true -> Js.same_value_zero b c = false ->
  Js.same_value_zero a c = false.
Proof.
  intros Hab Hbc. destruct (Js.same_value_zero a c) eqn:E; [|reflexivity].
  rewrite same_value_zero_sym in Hab.
  now rewrite (same_value_zero_trans b a c Hab E) in Hbc.
Qed.

(** No conversion between types: a string is never the same key as a
    number, whatever they spell. *)
Lemma texto_nao_e_numero (x : string) (z : Z) :
  Js.same_value_zero (Js.KStr x) (Js.chave_int z) = false.
Proof. reflexivity. Qed.

Section MapFacts.

Context {V : Type}.

Implicit Types (m : Js.MapData V) (k : Js.chave) (v : V).

Lemma Map_get_None m k :
  Js.Map_get k m = None <->
  Forall (fun kv => Js.same_value_zero (fst kv) k = false) (Js.Map_entries m).
Proof.
  induction m as [|[[k' v']|] m IH]; simpl.
  - split; [constructor | reflexivity].
  - destruct (Js.same_value_zero k' k) eqn:E.
    + split; [discriminate|]. intro H. inversion H; subst. simpl in *. congruence.
    + rewrite IH. split; [now constructor | now inversion 1].
  - exact IH.
Qed.

Lemma Map_get_Some m k v :
  Js.Map_get k m = Some v ->
  exists k', In (k', v) (Js.Map_entries m) /\ Js.same_value_zero k' k = true.
Proof.
  induction m as [|[[k' v']|] m IH]; simpl; [discriminate| |exact IH].
  destruct (Js.same_value_zero k' k) eqn:E.
  - intros [= <-]. exists k'. split; [now left | exact E].
  - intro H. destruct (IH H) as (k'' & Hin & Hk). exists k''. split; [now right | exact Hk].
Qed.

(** With distinct keys, an entry is what [get] returns for its key. *)
Lemma Map_get_In m k v :
  chaves_distintas m -> In (k, v) (Js.Map_entries m) -> Js.Map_get k m = Some v.
Proof.
  induction m as [|[[k' v']|] m IH]; simpl; [contradiction| |exact IH].
  intros [Hk Hd] [[= -> ->]|Hin].
  - now rewrite same_value_zero_refl.
  - destruct (Js.same_value_zero k' k) eqn:E; [|now apply IH].
    exfalso. apply Map_get_None in Hk. rewrite Forall_forall in Hk.
    specialize (Hk _ Hin). simpl in Hk. rewrite same_value_zero_sym in Hk. congruence.
Qed.

(** [get] after [set]. *)
Lemma Map_get_set m k v k2 :
  Js.Map_get k2 (Js.Map_set k v m) =
  if Js.same_value_zero k k2 then Some v else Js.Map_get k2 m.
Proof.
  induction m as [|[[k' v']|] m IH]; simpl.
  - now destruct (Js.same_value_zero k k2).
  - destruct (Js.same_value_zero k' k) eqn:E; simpl.
    + destruct (Js.same_value_zero k k2) eqn:E2.
      * now rewrite (same_value_zero_trans _ _ _ E E2).
      * now rewrite (same_value_zero_false _ _ _ E E2).
    + destruct (Js.same_value_zero k' k2) eqn:E1; [|exact IH].
      destruct (Js.same_value_zero k k2) eqn:E2; [|reflexivity].
      rewrite (same_value_zero_sym k k2) in E2.
      now rewrite (same_value_zero_trans _ _ _ E1 E2) in E.
  - exact IH.
Qed.

Lemma Map_set_length m k v :
  (List.length m <= List.length (Js.Map_set k v m))%nat.
Proof.
  induction m as [|[[k' v']|] m IH]; simpl; try lia.
  destruct (Js.same_value_zero k' k); simpl; lia.
Qed.

(** An entry after [set] was there before, or carries the new value under
    the new key or under a key that was there. *)
Lemma Map_entries_set_In m k v k1 v1 :
  In (k1, v1) (Js.Map_entries (Js.Map_set k v m)) ->
  In (k1, v1) (Js.Map_entries m) \/
  (v1 = v /\ (k1 = k \/ exists v0, In (k1, v0) (Js.Map_entries m))).
Proof.
  induction m as [|[[k' v']|] m IH]; simpl.
  - intros [[= <- <-]|[]]. right. split; [reflexivity | now left].
  - destruct (Js.same_value_zero k' k); simpl.
    + intros [[= <- <-]|H]; [|left; now right].
      right. split; [reflexivity|]. right. exists v'. now left.
    + intros [H|H]; [left; now left|].
      destruct (IH H) as [H'|(-> & [->|(v0 & H')])].
      * left. now right.
      * right. split; [reflexivity | now left].
      * right. split; [reflexivity|]. right. exists v0. now right.
  - exact IH.
Qed.

Lemma Map_set_distintas m k v :
  chaves_distintas m -> chaves_distintas (Js.Map_set k v m).
Proof.
  induction m as [|[[k' v']|] m IH]; simpl.
  - tauto.
  - intros [Hk Hd]. destruct (Js.same_value_zero k' k) eqn:E; simpl.
    + tauto.
    + split; [|now apply IH]. rewrite Map_get_set.
      rewrite same_value_zero_sym, E. exact Hk.
  - exact IH.
Qed.

(** [delete] up to the entry of the key. *)
Lemma Map_delete_app m1 m2 k :
  Js.Map_get k m1 = None ->
  Js.Map_delete k (m1 ++ m2) = m1 ++ Js.Map_delete k m2.
Proof.
  induction m1 as [|[[k' v']|] m1 IH]; simpl; intro H.
  - reflexivity.
  - destruct (Js.same_value_zero k' k); [discriminate|]. now rewrite IH.
  - now rewrite IH.
Qed.

Lemma Map_get_app m1 m2 k :
  Js.Map_get k (m1 ++ m2) =
  match Js.Map_get k m1 with Some v => Some v | None => Js.Map_get k m2 end.
Proof.
  induction m1 as [|[[k' v']|] m1 IH]; simpl; [reflexivity| |exact IH].
  now destruct (Js.same_value_zero k' k).
Qed.

Lemma Map_entries_app m1 m2 :
  Js.Map_entries (m1 ++ m2) = Js.Map_entries m1 ++ Js.Map_entries m2.
Proof. unfold Js.Map_entries. apply flat_map_app. Qed.

End MapFacts.

(** ** The close callback *)

Lemma Map_get_mesma_chave (m : Js.MapData socket) (a b : Js.chave) :
  Js.same_value_zero a b = true -> Js.Map_get a m = Js.Map_get b m.
Proof.
  intro Hab. induction m as [|[[k v]|] m IH]; simpl; [reflexivity| |exact IH].
  destruct (Js.same_value_zero k a) eqn:Ea.
  - now rewrite (same_value_zero_trans _ _ _ Ea Hab).
  - rewrite same_value_zero_sym in Hab.
    assert (Eb : Js.same_value_zero k b = false).
    { destruct (Js.same_value_zero k b) eqn:Eb; [|reflexivity].
      now rewrite (same_value_zero_trans _ _ _ Eb Hab) in Ea. }
    now rewrite Eb.
Qed.

Lemma Map_entries_sem_socket (ws : socket) (m : Js.MapData socket) :
  Js.Map_entries (sem_socket ws m) =
  filter (fun kv => negb (Nat.eqb (snd kv) ws)) (Js.Map_entries m).
Proof.
  induction m as [|[[k s]|] m IH]; simpl; [reflexivity| |exact IH].
  destruct (Nat.eqb s ws); simpl; now rewrite IH.
Qed.

Lemma Map_get_sem_socket_None (ws : socket) (m : Js.MapData socket) (k : Js.chave) :
  Js.Map_get k m = None -> Js.Map_get k (sem_socket ws m) = None.
Proof.
  rewrite !Map_get_None, Map_entries_sem_socket. intro H.
  rewrite Forall_forall in *. intros kv Hkv. apply filter_In in Hkv. now apply H.
Qed.

Lemma sem_socket_distintas (ws : socket) (m : Js.MapData socket) :
  chaves_distintas m -> chaves_distintas (sem_socket ws m).
Proof.
  induction m as [|[[k s]|] m IH]; simpl; [tauto| |exact IH].
  intros [Hk Hd]. destruct (Nat.eqb s ws); simpl; [now apply IH|].
  split; [now apply Map_get_sem_socket_None | now apply IH].
Qed.

(** [get] after every entry of [ws] was emptied. *)
Lemma Map_get_sem_socket (ws : socket) (m : Js.MapData socket) (k : Js.chave) :
  chaves_distintas m ->
  Js.Map_get k (sem_socket ws m) =
  match Js.Map_get k m with
  | Some s => if Nat.eqb s ws then None else Some s
  | None => None
  end.
Proof.
  induction m as [|[[k' s']|] m IH]; simpl; [reflexivity| |exact IH].
  intros [Hk Hd]. destruct (Nat.eqb s' ws) eqn:Es; simpl.
  - destruct (Js.same_value_zero k' k) eqn:E.
    + rewrite Es. apply Map_get_sem_socket_None.
      now rewrite <- (Map_get_mesma_chave m k' k E).
    + now apply IH.
  - destruct (Js.same_value_zero k' k) eqn:E; [now rewrite Es | now apply IH].
Qed.

Lemma sem_socket_nada (ws : socket) (m : Js.MapData socket) :
  registradas ws m = [] -> sem_socket ws m = m.
Proof.
  unfold registradas. induction m as [|[[k s]|] m IH]; simpl; [reflexivity| |].
  - destruct (Nat.eqb s ws); simpl; [discriminate|]. intro H. now rewrite IH.
  - intro H. now rewrite IH.
Qed.

Lemma registradas_sem_socket (ws : socket) (m : Js.MapData socket) :
  registradas ws (sem_socket ws m) = [].
Proof.
  unfold registradas. rewrite Map_entries_sem_socket.
  induction (Js.Map_entries m) as [|[k s] l IH]; simpl; [reflexivity|].
  destruct (Nat.eqb s ws) eqn:E; simpl; [exact IH|]. now rewrite E.
Qed.

(** The loop, from the entry at [length feitas] on: the entries before it
    were visited, those of [resto] are still to come. With distinct keys and
    keys that convert to strings the loop ends without an exception, having
    emptied the entries of [ws] in [resto]; [n] visits are enough when
    [resto] has no more than [n] records. *)
Lemma on_close_de_resto (ws : socket) (resto : Js.MapData socket) :
  forall (feitas : Js.MapData socket) (n : nat),
  (List.length resto <= n)%nat ->
  chaves_distintas resto ->
  (forall k v, In (k, v) (Js.Map_entries resto) -> Js.Map_get k feitas = None) ->
  Forall (fun kv => Js.template_lanca (fst kv) = false) (Js.Map_entries resto) ->
  on_close_de n (List.length feitas) ws (feitas ++ resto)
  = (feitas ++ sem_socket ws resto, None).
Proof.
  induction resto as [|e resto IH]; intros feitas n Hn Hd Hsep Himp.
  - simpl. destruct n as [|n]; simpl; [reflexivity|].
    repeat rewrite app_nil_r.
    now rewrite (proj2 (nth_error_None feitas (List.length feitas)) (Nat.le_refl _)).
  - destruct n as [|n]; [simpl in Hn; lia|]. simpl in Hn.
    assert (Hnth : nth_error (feitas ++ e :: resto) (List.length feitas) = Some e).
    { rewrite nth_error_app2 by lia. now rewrite Nat.sub_diag. }
    assert (Hpasso : forall e' : option (Js.chave * socket),
               (forall k v, In (k, v) (Js.Map_entries resto) ->
                            Js.Map_get k (feitas ++ [e']) = None) ->
               chaves_distintas resto ->
               Forall (fun kv => Js.template_lanca (fst kv) = false)
                      (Js.Map_entries resto) ->
               on_close_de n (S (List.length feitas)) ws (feitas ++ e' :: resto)
               = (feitas ++ e' :: sem_socket ws resto, None)).
    { intros e' Hsep' Hd' Himp'.
      pose proof (IH (feitas ++ [e']) n ltac:(lia) Hd' Hsep' Himp') as H.
      rewrite length_app in H. simpl in H.
      rewrite Nat.add_1_r, <- !app_assoc in H. exact H. }
    cbn [on_close_de]. rewrite Hnth.
    destruct e as [[k s]|].
    + simpl in Hd, Hsep, Himp. destruct Hd as [Hk Hd].
      inversion Himp as [|? ? Hik Himp']; subst. simpl in Hik.
      cbn [sem_socket map]. destruct (Nat.eqb s ws) eqn:Es.
      * rewrite Map_delete_app by (apply (Hsep k s); now left).
        cbn [Js.Map_delete]. rewrite same_value_zero_refl, Hik.
        apply Hpasso; [|exact Hd|exact Himp'].
        intros k2 v2 H2. rewrite Map_get_app, (Hsep k2 v2) by now right. reflexivity.
      * apply Hpasso; [|exact Hd|exact Himp'].
        intros k2 v2 H2. rewrite Map_get_app, (Hsep k2 v2) by now right. simpl.
        apply Map_get_None in Hk. rewrite Forall_forall in Hk.
        specialize (Hk _ H2). simpl in Hk. rewrite same_value_zero_sym in Hk.
        now rewrite Hk.
    + simpl in Hd, Hsep, Himp. cbn [sem_socket map].
      apply Hpasso; [|exact Hd|exact Himp].
      intros k2 v2 H2. rewrite Map_get_app, (Hsep k2 v2) by assumption. reflexivity.
Qed.

(** The close callback ends, and empties exactly the entries of [ws]. *)
Lemma on_close_sem_socket (ws : socket) (s : servidor) :
  chaves_distintas (conexoes s) ->
  Forall (fun kv => Js.template_lanca (fst kv) = false) (Js.Map_entries (conexoes s)) ->
  on_close ws s = (com_conexoes (sem_socket ws (conexoes s)) s, None).
Proof.
  intros Hd Himp. unfold on_close.
  pose proof (on_close_de_resto ws (conexoes s) [] (List.length (conexoes s))
                (Nat.le_refl _) Hd (fun _ _ _ => eq_refl) Himp) as H.
  simpl in H. now rewrite H.
Qed.

(** More visits than records change nothing. *)
Lemma on_close_de_folga (ws : socket) (m : Js.MapData socket) (n : nat) :
  chaves_distintas m ->
  Forall (fun kv => Js.template_lanca (fst kv) = false) (Js.Map_entries m) ->
  (List.length m <= n)%nat ->
  on_close_de n 0 ws m = on_close_de (List.length m) 0 ws m.
Proof.
  intros Hd Himp Hn.
  pose proof (on_close_de_resto ws m [] n Hn Hd (fun _ _ _ => eq_refl) Himp) as H1.
  pose proof (on_close_de_resto ws m [] _ (Nat.le_refl _) Hd (fun _ _ _ => eq_refl) Himp)
    as H2.
  simpl in H1, H2. now rewrite H1, H2.
Qed.


(** ** The callbacks and the dispatcher *)

Lemma nth_error_muda (ws : nat) (e : ready_state) :
  forall (l : list ready_state) (i : nat),
  (ws < List.length l)%nat ->
  nth_error (firstn ws l ++ e :: skipn (S ws) l) i =
  if Nat.eqb i ws then Some e else nth_error l i.
Proof.
  induction ws as [|w IH]; intros [|x l] i Hlen; simpl in Hlen; try lia.
  - destruct i; reflexivity.
  - destruct i as [|j]; [reflexivity|]. simpl. apply IH. lia.
Qed.

Lemma nth_error_com_ready_state (ws i : socket) (e : ready_state) (s : servidor) :
  (ws < List.length (sockets s))%nat ->
  nth_error (sockets (com_ready_state ws e s)) i =
  if Nat.eqb i ws then Some e else nth_error (sockets s) i.
Proof. intro H. simpl. now apply nth_error_muda. Qed.

Section Callbacks.

Variable JSON_parse : string -> option Js.valor.
Variable JSON_stringify : Mensagem.t -> string.

(** A frame that asks for a registration sets the entry. *)
Lemma on_message_registra ws frame s dados tipo usuario_id :
  JSON_parse frame = Some dados ->
  Js.propriedade "tipo" dados = inr tipo ->
  Js.igual_a_texto tipo "registrar" = true ->
  Js.propriedade "usuario_id" dados = inr usuario_id ->
  on_message JSON_parse ws frame s =
  (registrado (Js.chave_de usuario_id (objetos s)) ws s,
   if Js.template_lanca (Js.chave_de usuario_id (objetos s))
   then Some Js.TypeError else None).
Proof.
  intros Hp Ht Hr Hu. unfold on_message. rewrite Hp, Ht, Hr, Hu.
  now destruct (Js.template_lanca _).
Qed.

(** What a callback that returns has done: nothing, or one registration
    under a key that converts to a string. *)
Lemma on_message_normal ws frame s s' :
  on_message JSON_parse ws frame s = (s', None) ->
  s' = s \/
  exists usuario_id,
    Js.template_lanca (Js.chave_de usuario_id (objetos s)) = false /\
    s' = registrado (Js.chave_de usuario_id (objetos s)) ws s.
Proof.
  unfold on_message.
  destruct (JSON_parse frame) as [dados|]; [|discriminate].
  destruct (Js.propriedade "tipo" dados) as [|tipo]; [discriminate|].
  destruct (Js.igual_a_texto tipo "registrar"); [|intros [= <-]; now left].
  destruct (Js.propriedade "usuario_id" dados) as [|usuario_id]; [discriminate|].
  destruct (Js.template_lanca _) eqn:E; [discriminate|].
  intros [= <-]. right. now exists usuario_id.
Qed.

(** The dispatcher touches nothing but the record of what was sent. *)
Lemma notificarNovaMensagem_resto (m : Mensagem.t) (s : servidor) :
  pool (notificarNovaMensagem JSON_stringify m s) = pool s /\
  conexoes (notificarNovaMensagem JSON_stringify m s) = conexoes s /\
  sockets (notificarNovaMensagem JSON_stringify m s) = sockets s /\
  objetos (notificarNovaMensagem JSON_stringify m s) = objetos s.
Proof.
  unfold notificarNovaMensagem.
  destruct (Js.Map_get _ _) as [ws|]; [|repeat split].
  destruct (ready_state_eqb _ _); repeat split.
Qed.

Lemma chave_de_objeto (usuario_id : option Js.valor) (n : nat) :
  match Js.chave_de usuario_id n with
  | Js.KRef a _ => a = n
  | _ => True
  end.
Proof. destruct usuario_id as [[]|]; simpl; auto. Qed.

(** *** The invariant of [conexoes] *)

Lemma registrado_ok (k : Js.chave) (ws : socket) (s : servidor) :
  registro_ok s ->
  nth_error (sockets s) ws = Some OPEN ->
  Js.template_lanca k = false ->
  match k with Js.KRef a _ => a = objetos s | _ => True end ->
  registro_ok (registrado k ws s).
Proof.
  intros [Hd Hi Ho Ha] Hws Hk Hobj. constructor; simpl.
  - now apply Map_set_distintas.
  - rewrite Forall_forall in *. intros [k1 v1] H1.
    apply Map_entries_set_In in H1. destruct H1 as [H1|(-> & [->|(v0 & H1)])].
    + now apply Hi.
    + exact Hk.
    + exact (Hi _ H1).
  - rewrite Forall_forall in *. intros [k1 v1] H1.
    apply Map_entries_set_In in H1. destruct H1 as [H1|(-> & [->|(v0 & H1)])].
    + specialize (Ho _ H1). simpl in *. destruct k1; auto.
    + simpl. destruct k; auto. lia.
    + specialize (Ho _ H1). simpl in *. destruct k1; auto.
  - rewrite Forall_forall in *. intros [k1 v1] H1.
    apply Map_entries_set_In in H1. destruct H1 as [H1|(-> & _)].
    + now apply Ha.
    + simpl. exists OPEN. split; [exact Hws | discriminate].
Qed.

Lemma on_message_ok ws frame s s' :
  registro_ok s -> nth_error (sockets s) ws = Some OPEN ->
  on_message JSON_parse ws frame s = (s', None) -> registro_ok s'.
Proof.
  intros Hok Hws H. apply on_message_normal in H.
  destruct H as [->|(usuario_id & Hk & ->)]; [exact Hok|].
  apply registrado_ok; try assumption. apply chave_de_objeto.
Qed.

(** When a socket closes, the callback runs on a map with distinct keys that
    convert to strings: it returns, and the invariant holds again. *)
Lemma on_close_ok ws estado s :
  registro_ok s -> nth_error (sockets s) ws = Some estado ->
  on_close ws (com_ready_state ws CLOSED s) =
    (com_conexoes (sem_socket ws (conexoes s)) (com_ready_state ws CLOSED s), None) /\
  registro_ok (com_conexoes (sem_socket ws (conexoes s)) (com_ready_state ws CLOSED s)).
Proof.
  intros [Hd Hi Ho Ha] Hws.
  assert (Hlen : (ws < List.length (sockets s))%nat)
    by (apply nth_error_Some; congruence).
  split; [apply (on_close_sem_socket ws (com_ready_state ws CLOSED s)); assumption|].
  constructor; cbn [conexoes com_conexoes objetos].
  - now apply sem_socket_distintas.
  - rewrite Map_entries_sem_socket. rewrite Forall_forall in *.
    intros kv H. apply filter_In in H. now apply Hi.
  - rewrite Map_entries_sem_socket. rewrite Forall_forall in *.
    intros kv H. apply filter_In in H. now apply Ho.
  - rewrite Map_entries_sem_socket. rewrite Forall_forall in *.
    intros kv H. apply filter_In in H. destruct H as [H Hne].
    apply negb_true_iff in Hne.
    change (sockets (com_conexoes (sem_socket ws (conexoes s)) (com_ready_state ws CLOSED s)))
      with (sockets (com_ready_state ws CLOSED s)).
    rewrite nth_error_com_ready_state, Hne by exact Hlen. now apply Ha.
Qed.

Lemma passo_registro_ok s e s' :
  registro_ok s -> passo JSON_parse JSON_stringify s e s' -> registro_ok s'.
Proof.
  intros Hok Hp. destruct Hp as [s agora nome telefone | s agora r d texto | s
                                | s ws frame s' Hws Hm | s ws Hws
                                | s ws estado s' Hws Hne Hc].
  - unfold post_usuarios. destruct (insert_usuarios _ _ _ _) as [db [e|u]];
      destruct Hok; now constructor.
  - unfold post_mensagens. destruct (insert_mensagens _ _ _ _ _) as [db [e|m]]; simpl.
    + destruct Hok; now constructor.
    + destruct (notificarNovaMensagem_resto m (com_pool db s)) as (_ & Ec & Es & Eo).
      destruct Hok as [Hd Hi Ho Ha]. constructor; rewrite ?Ec, ?Es, ?Eo; assumption.
  - destruct Hok as [Hd Hi Ho Ha]. constructor; simpl; try assumption.
    eapply Forall_impl; [|exact Ha]. intros kv (e & He & Hne).
    exists e. split; [|exact Hne]. rewrite nth_error_app1; [exact He|].
    apply nth_error_Some. congruence.
  - eapply on_message_ok; eassumption.
  - assert (Hlen : (ws < List.length (sockets s))%nat)
      by (apply nth_error_Some; congruence).
    destruct Hok as [Hd Hi Ho Ha]. constructor; try assumption.
    rewrite Forall_forall in *. intros kv H. destruct (Ha kv H) as (e & He & Hne).
    rewrite nth_error_com_ready_state by exact Hlen.
    destruct (Nat.eqb (snd kv) ws).
    + exists CLOSING. split; [reflexivity | discriminate].
    + exists e. split; assumption.
  - destruct (on_close_ok ws estado s Hok Hws) as [E H]. rewrite E in Hc.
    injection Hc as <-. exact H.
Qed.

Lemma passo_banco_ok s e s' :
  banco_ok (pool s) -> passo JSON_parse JSON_stringify s e s' -> banco_ok (pool s').
Proof.
  intros Hok Hp. destruct Hp as [s agora nome telefone | s agora r d texto | s
                                | s ws frame s' Hws Hm | s ws Hws
                                | s ws estado s' Hws Hne Hc]; try exact Hok.
  - unfold post_usuarios.
    pose proof (insert_usuarios_ok agora nome telefone (pool s) Hok) as H.
    destruct (insert_usuarios _ _ _ _) as [db [e|u]]; exact H.
  - unfold post_mensagens.
    pose proof (insert_mensagens_ok agora r d texto (pool s) Hok) as H.
    destruct (insert_mensagens _ _ _ _ _) as [db [e|m]]; simpl; [exact H|].
    destruct (notificarNovaMensagem_resto m (com_pool db s)) as (-> & _). exact H.
  - apply on_message_normal in Hm. destruct Hm as [->|(u & _ & ->)]; exact Hok.
  - unfold on_close in Hc. destruct (on_close_de _ _ _ _). injection Hc as <- _. exact Hok.
Qed.

Lemma inicio_registro_ok (existente : option banco) : registro_ok (inicio existente).
Proof. constructor; simpl; constructor. Qed.

(** The invariant of [conexoes] holds in every state of a running process. *)
Lemma alcancavel_registro_ok existente s :
  alcancavel JSON_parse JSON_stringify existente s -> registro_ok s.
Proof.
  induction 1 as [|s e s' _ IH Hp]; [apply inicio_registro_ok|].
  eapply passo_registro_ok; eassumption.
Qed.

(** The constraints of the schema hold in every state of a process that was
    started on no store or on a store where they hold. *)
Lemma alcancavel_banco_ok existente s :
  banco_ok (criarTabelas existente) ->
  alcancavel JSON_parse JSON_stringify existente s -> banco_ok (pool s).
Proof.
  intros H0. induction 1 as [|s e s' _ IH Hp]; [exact H0|].
  eapply passo_banco_ok; eassumption.
Qed.

Lemma executa_passo e s s' :
  executa JSON_parse JSON_stringify e s = Some s' <->
  passo JSON_parse JSON_stringify s e s'.
Proof.
  split.
  - destruct e as [agora nome telefone | agora r d texto | | ws frame | ws | ws]; simpl.
    + intros [= <-]. constructor.
    + intros [= <-]. constructor.
    + intros [= <-]. constructor.
    + destruct (nth_error (sockets s) ws) as [[]|] eqn:E; try discriminate.
      destruct (on_message JSON_parse ws frame s) as [s1 [x|]] eqn:Em; [discriminate|].
      intros [= <-]. now constructor.
    + destruct (nth_error (sockets s) ws) as [[]|] eqn:E; try discriminate.
      intros [= <-]. now constructor.
    + destruct (nth_error (sockets s) ws) as [estado|] eqn:E; [|discriminate].
      destruct (on_close ws (com_ready_state ws CLOSED s)) as [s1 [x|]] eqn:Ec;
        destruct estado; try discriminate; intros [= <-];
        apply (passo_close _ _ s ws _ s1 E); try exact Ec; discriminate.
  - intro Hp. destruct Hp as [s agora nome telefone | s agora r d texto | s
                             | s ws frame s' Hws Hm | s ws Hws
                             | s ws estado s' Hws Hne Hc]; simpl; try reflexivity.
    + now rewrite Hws, Hm.
    + now rewrite Hws.
    + rewrite Hws, Hc. destruct estado; try reflexivity. contradiction.
Qed.

Lemma executa_todos_alcancavel existente es s :
  executa_todos JSON_parse JSON_stringify es (inicio existente) = Some s ->
  alcancavel JSON_parse JSON_stringify existente s.
Proof.
  assert (H : forall s0, alcancavel JSON_parse JSON_stringify existente s0 ->
                executa_todos JSON_parse JSON_stringify es s0 = Some s ->
                alcancavel JSON_parse JSON_stringify existente s).
  { induction es as [|e es IH]; simpl; intros s0 H0.
    - now intros [= <-].
    - destruct (executa JSON_parse JSON_stringify e s0) as [s1|] eqn:E; [|discriminate].
      apply IH. apply (alcancavel_passo _ _ _ s0 e s1 H0). apply executa_passo, E. }
  apply H. constructor.
Qed.

End Callbacks.

(** ** The routes that write *)

Lemma filter_Permutation {A : Type} (f : A -> bool) (l l' : list A) :
  Permutation l l' -> Permutation (filter f l) (filter f l').
Proof.
  induction 1 as [|x l l' _ IH|x y l|l l' l'' _ IH1 _ IH2]; simpl.
  - constructor.
  - destruct (f x); [now constructor | exact IH].
  - destruct (f x), (f y); try apply Permutation_refl. apply perm_swap.
  - eapply perm_trans; eassumption.
Qed.

Lemma filter_telefone_nenhum (t : string) (us : list Usuario.t) :
  ~ In t (map Usuario.telefone us) ->
  filter (fun x => String.eqb (Usuario.telefone x) t) us = [].
Proof.
  induction us as [|u us IH]; simpl; [reflexivity|]. intro H.
  destruct (String.eqb (Usuario.telefone u) t) eqn:E.
  - apply String.eqb_eq in E. tauto.
  - apply IH. tauto.
Qed.

(** The route answers 400 exactly when the INSERT fails, and then the
    tables are as before. *)
Lemma post_usuarios_inl agora nome telefone s db e :
  insert_usuarios agora nome telefone (pool s) = (db, inl e) ->
  snd (post_usuarios agora nome telefone s)
    = mk_resposta 400 (json_erro "Usuário já existe ou erro ao criar") /\
  usuarios (pool (fst (post_usuarios agora nome telefone s))) = usuarios (pool s) /\
  mensagens (pool (fst (post_usuarios agora nome telefone s))) = mensagens (pool s).
Proof.
  intro E. unfold post_usuarios. rewrite E. simpl.
  apply insert_usuarios_inl in E. tauto.
Qed.

(** A handle that is stored cannot be inserted again. *)
Lemma insert_usuarios_duplicado agora nome telefone db t :
  varchar 20 telefone = inr (Some t) ->
  In t (map Usuario.telefone (usuarios db)) ->
  exists db' e, insert_usuarios agora nome telefone db = (db', inl e).
Proof.
  intros Hv Hin.
  destruct (insert_usuarios agora nome telefone db) as [db' [e|u]] eqn:E.
  - now exists db', e.
  - apply insert_usuarios_inr in E. destruct E as (_ & _ & _ & _ & Ht & _ & Hnot & _).
    rewrite Hv in Ht. injection Ht as ->. contradiction.
Qed.

(** C5. Creating a user with a contact handle that is in use is answered
    400 and adds no row. In particular, after a creation that succeeded, a
    second request with the same handle is answered 400, and the list of
    users then has exactly one user with that handle. *)
Theorem telefone_em_uso_recusado :
  (forall s agora nome t,
     banco_ok (pool s) ->
     In t (map Usuario.telefone (usuarios (pool s))) ->
     snd (post_usuarios agora nome (Some t) s)
       = mk_resposta 400 (json_erro "Usuário já existe ou erro ao criar") /\
     usuarios (pool (fst (post_usuarios agora nome (Some t) s))) = usuarios (pool s)) /\
  (forall s agora nome telefone s1 u,
     post_usuarios agora nome telefone s = (s1, mk_resposta 200 (json_usuario u)) ->
     forall agora2 nome2,
       snd (post_usuarios agora2 nome2 telefone s1)
         = mk_resposta 400 (json_erro "Usuário já existe ou erro ao criar") /\
       usuarios (pool (fst (post_usuarios agora2 nome2 telefone s1))) = usuarios (pool s1) /\
       forall lista,
         select_usuarios (pool (fst (post_usuarios agora2 nome2 telefone s1))) lista ->
         List.length (filter (fun x => String.eqb (Usuario.telefone x) (Usuario.telefone u))
                             lista) = 1%nat).
Proof.
  split.
  - intros s agora nome t Hok Hin.
    assert (Hv : varchar 20 (Some t) = inr (Some t)).
    { apply varchar_cabe. apply in_map_iff in Hin. destruct Hin as (u & <- & Hu).
      pose proof (varchar_usuarios _ Hok) as H. rewrite Forall_forall in H.
      now apply H. }
    destruct (insert_usuarios_duplicado agora nome (Some t) (pool s) t Hv Hin)
      as (db & e & E).
    apply post_usuarios_inl in E. tauto.
  - intros s agora nome telefone s1 u H agora2 nome2.
    unfold post_usuarios in H.
    destruct (insert_usuarios agora nome telefone (pool s)) as [db [e|u0]] eqn:E;
      [discriminate|].
    injection H as Hs Hu. subst u0 s1. apply insert_usuarios_inr in E.
    destruct E as (_ & _ & _ & _ & Hv & _ & Hnot & ->).
    assert (Hin : In (Usuario.telefone u)
                     (map Usuario.telefone (usuarios (pool (com_pool
                        (mk_banco (usuarios (pool s) ++ [u]) (mensagens (pool s))
                           (Usuario.id u) (mensagens_id_seq (pool s))) s))))).
    { simpl. rewrite map_app. apply in_or_app. right. now left. }
    destruct (insert_usuarios_duplicado agora2 nome2 telefone _ _ Hv Hin) as (db & e & E).
    apply post_usuarios_inl in E. destruct E as (Er & Eu & _).
    split; [exact Er|]. split; [exact Eu|].
    intros lista [Hp _]. rewrite Eu in Hp. simpl in Hp.
    rewrite <- (Permutation_length (filter_Permutation _ _ _ Hp)).
    rewrite filter_app, (filter_telefone_nenhum _ _ Hnot). simpl.
    now rewrite String.eqb_refl.
Qed.

Section PostMensagens.

Variable JSON_stringify : Mensagem.t -> string.


End PostMensagens.

(** ** The registry and the dispatch *)

Section Registro.

Variable JSON_parse : string -> option Js.valor.
Variable JSON_stringify : Mensagem.t -> string.

(** C6. When a socket [ws] of a running process closes, the close callback
    returns and the next state has no entry of [conexoes] whose value is
    [ws], however many keys were registered to it; the entries of the other
    sockets are as before; and when no key was registered to [ws] the map is
    unchanged. *)
Theorem close_remove_todas_as_entradas (existente : option banco) (s : servidor)
    (ws : socket) (estado : ready_state) :
  alcancavel JSON_parse JSON_stringify existente s ->
  nth_error (sockets s) ws = Some estado -> estado <> CLOSED ->
  exists s',
    passo JSON_parse JSON_stringify s (close ws) s' /\
    (forall s'', passo JSON_parse JSON_stringify s (close ws) s'' -> s'' = s') /\
    registradas ws (conexoes s') = [] /\
    (forall k, Js.Map_get k (conexoes s') <> Some ws) /\
    (forall k ws', ws' <> ws ->
       (Js.Map_get k (conexoes s') = Some ws' <-> Js.Map_get k (conexoes s) = Some ws')) /\
    Js.Map_entries (conexoes s') =
      filter (fun kv => negb (Nat.eqb (snd kv) ws)) (Js.Map_entries (conexoes s)) /\
    (registradas ws (conexoes s) = [] -> conexoes s' = conexoes s) /\
    pool s' = pool s /\ enviados s' = enviados s.
Proof.
  intros Halc Hws Hne. pose proof (alcancavel_registro_ok _ _ _ _ Halc) as Hok.
  destruct (on_close_ok ws estado s Hok Hws) as [E _].
  pose proof (ok_chaves s Hok) as Hd.
  exists (com_conexoes (sem_socket ws (conexoes s)) (com_ready_state ws CLOSED s)).
  split; [now apply (passo_close _ _ s ws estado)|].
  split.
  { intros s'' Hp. inversion Hp as [| | | | |? ? ? ? _ _ Hc]; subst.
    rewrite E in Hc. now injection Hc. }
  cbn [conexoes com_conexoes pool enviados com_ready_state com_sockets].
  split; [apply registradas_sem_socket|].
  split; [|split; [|split; [|split]]].
  - intros k. rewrite Map_get_sem_socket by assumption.
    destruct (Js.Map_get k (conexoes s)) as [x|]; [|discriminate].
    destruct (Nat.eqb x ws) eqn:Ex; [discriminate|].
    apply Nat.eqb_neq in Ex. congruence.
  - intros k ws' Hdif. rewrite Map_get_sem_socket by assumption.
    destruct (Js.Map_get k (conexoes s)) as [x|]; [|tauto].
    destruct (Nat.eqb x ws) eqn:Ex.
    + apply Nat.eqb_eq in Ex. subst x. split; [discriminate | congruence].
    + tauto.
  - apply Map_entries_sem_socket.
  - apply sem_socket_nada.
  - split; reflexivity.
Qed.

(** C7. A frame that registers the socket [ws] under a key that is the
    number [d] makes [ws] the entry of [d]; while [ws] is open, the
    dispatch of a message addressed to [d] hands exactly the serialized
    message to [ws], and nothing else. The dispatch of a message whose
    recipient has no entry changes nothing, and the route answers 200 with
    the stored message whatever the dispatch did. *)
Theorem notificacao_entregue_ao_registrado (ws : socket) (frame : string)
    (s : servidor) (dados : Js.valor) (tipo usuario_id : option Js.valor) (d : Z) :
  JSON_parse frame = Some dados ->
  Js.propriedade "tipo" dados = inr tipo ->
  Js.igual_a_texto tipo "registrar" = true ->
  Js.propriedade "usuario_id" dados = inr usuario_id ->
  Js.same_value_zero (Js.chave_de usuario_id (objetos s)) (Js.chave_int d) = true ->
  let s1 := fst (on_message JSON_parse ws frame s) in
  snd (on_message JSON_parse ws frame s) = None /\
  Js.Map_get (Js.chave_int d) (conexoes s1) = Some ws /\
  (forall m, Mensagem.destinatario_id m = d -> readyState ws s1 = OPEN ->
     notificarNovaMensagem JSON_stringify m s1 =
     mk_servidor (pool s1) (conexoes s1) (sockets s1)
                 (enviados s1 ++ [(ws, JSON_stringify m)]) (objetos s1)) /\
  (forall s0 m,
     Js.Map_get (Js.chave_int (Mensagem.destinatario_id m)) (conexoes s0) = None ->
     notificarNovaMensagem JSON_stringify m s0 = s0) /\
  (forall s0 agora r dd texto db m,
     insert_mensagens agora r dd texto (pool s0) = (db, inr m) ->
     snd (post_mensagens JSON_stringify agora r dd texto s0)
       = mk_resposta 200 (json_mensagem m)).
Proof.
  intros Hp Ht Hr Hu Hk s1. subst s1.
  rewrite (on_message_registra JSON_parse ws frame s dados tipo usuario_id Hp Ht Hr Hu).
  cbn [fst snd].
  assert (Himp : Js.template_lanca (Js.chave_de usuario_id (objetos s)) = false).
  { destruct (Js.chave_de usuario_id (objetos s)); simpl in *; try reflexivity.
    discriminate. }
  rewrite Himp. split; [reflexivity|].
  assert (Hget : Js.Map_get (Js.chave_int d)
                   (conexoes (registrado (Js.chave_de usuario_id (objetos s)) ws s))
                 = Some ws).
  { simpl. now rewrite Map_get_set, Hk. }
  split; [exact Hget|]. split; [|split].
  - intros m <- Hopen. unfold notificarNovaMensagem. rewrite Hget, Hopen. reflexivity.
  - intros s0 m Hnone. unfold notificarNovaMensagem. now rewrite Hnone.
  - intros s0 agora r dd texto db m E. unfold post_mensagens. now rewrite E.
Qed.

(** C9. The lookup of the dispatch compares keys without converting them: a
    registration under a key that is not the same value as the number [d]
    (any string is such a key, also the string that spells [d]) leaves the
    entry of [d] as it was, so that with no other registration a message
    addressed to [d] is handed to no socket. *)
Theorem registro_com_outra_chave_nao_entrega (ws : socket) (frame : string)
    (s : servidor) (dados : Js.valor) (tipo usuario_id : option Js.valor) (d : Z) :
  JSON_parse frame = Some dados ->
  Js.propriedade "tipo" dados = inr tipo ->
  Js.igual_a_texto tipo "registrar" = true ->
  Js.propriedade "usuario_id" dados = inr usuario_id ->
  Js.same_value_zero (Js.chave_de usuario_id (objetos s)) (Js.chave_int d) = false ->
  let s1 := fst (on_message JSON_parse ws frame s) in
  Js.Map_get (Js.chave_int d) (conexoes s1) = Js.Map_get (Js.chave_int d) (conexoes s) /\
  (Js.Map_get (Js.chave_int d) (conexoes s) = None ->
   forall m, Mensagem.destinatario_id m = d ->
     notificarNovaMensagem JSON_stringify m s1 = s1) /\
  (forall x n, Js.same_value_zero (Js.chave_de (Some (Js.Str x)) n) (Js.chave_int d)
               = false).
Proof.
  intros Hp Ht Hr Hu Hk s1. subst s1.
  rewrite (on_message_registra JSON_parse ws frame s dados tipo usuario_id Hp Ht Hr Hu).
  cbn [fst].
  assert (Hget : Js.Map_get (Js.chave_int d)
                   (conexoes (registrado (Js.chave_de usuario_id (objetos s)) ws s))
                 = Js.Map_get (Js.chave_int d) (conexoes s)).
  { simpl. now rewrite Map_get_set, Hk. }
  split; [exact Hget|]. split; [|reflexivity].
  intros Hnone m <-. unfold notificarNovaMensagem. now rewrite Hget, Hnone.
Qed.

End Registro.

(** C10. Whatever [JSON.parse] does, a frame on which it throws makes the
    message callback end with that SyntaxError, the state untouched, so the
    process has no next state for that event; and such frames exist: the
    callback throws on the empty frame. *)
Theorem frame_invalido_lanca :
  (forall JSON_parse JSON_stringify ws frame s,
     JSON_parse frame = None ->
     on_message JSON_parse ws frame s = (s, Some Js.SyntaxError) /\
     forall s', ~ passo JSON_parse JSON_stringify s (message ws frame) s') /\
  (forall ws s, on_message Json.parse ws "" s = (s, Some Js.SyntaxError)).
Proof.
  split.
  - intros JSON_parse JSON_stringify ws frame s Hp.
    assert (E : on_message JSON_parse ws frame s = (s, Some Js.SyntaxError))
      by (unfold on_message; now rewrite Hp).
    split; [exact E|]. intros s' H.
    inversion H as [| | |? ? ? ? _ Hm| |]; subst. rewrite E in Hm. discriminate.
  - intros ws s. reflexivity.
Qed.

(** ** The scenarios *)

Lemma cenario_alcancavel (es : list evento) :
  executa_todos Json.parse Escreve.stringify es (inicio None) <> None ->
  alcancavel Json.parse Escreve.stringify None (Cenario.estado es).
Proof.
  intro H. unfold Cenario.estado.
  destruct (executa_todos Json.parse Escreve.stringify es (inicio None)) as [s|] eqn:E;
    [|contradiction].
  eapply executa_todos_alcancavel. exact E.
Qed.

Lemma cenario_banco_ok (es : list evento) :
  executa_todos Json.parse Escreve.stringify es (inicio None) <> None ->
  banco_ok (pool (Cenario.estado es)).
Proof.
  intro H. eapply alcancavel_banco_ok; [|apply cenario_alcancavel, H].
  apply banco_vazio_ok.
Qed.

Lemma banco_contatos_ok : banco_ok Cenario.banco_contatos.
Proof. apply cenario_banco_ok. vm_compute. discriminate. Qed.

Lemma banco_empate_ok : banco_ok Cenario.banco_empate.
Proof. apply cenario_banco_ok. vm_compute. discriminate. Qed.

(** *** C1 *)



(** *** C2 *)

(** C2, an instance: the summary of Alice after she wrote to Bob and Carol. *)
Lemma conversas_uma_linha_por_contato_exemplo :
  banco_ok Cenario.banco_contatos /\
  select_conversas Cenario.banco_contatos 1
    (executa_select_conversas Cenario.banco_contatos 1) /\
  NoDup (map Resumo.outro_usuario_id (executa_select_conversas Cenario.banco_contatos 1)) /\
  (forall c, In c (map Resumo.outro_usuario_id
                       (executa_select_conversas Cenario.banco_contatos 1)) <->
             exists m, trocada Cenario.banco_contatos 1 c m) /\
  (forall r, In r (executa_select_conversas Cenario.banco_contatos 1) ->
     exists m, trocada Cenario.banco_contatos 1 (Resumo.outro_usuario_id r) m /\
               Resumo.ultima_mensagem r = Mensagem.texto m /\
               Resumo.enviado_em r = Mensagem.enviado_em m /\
               (forall m', trocada Cenario.banco_contatos 1 (Resumo.outro_usuario_id r) m' ->
                           Mensagem.enviado_em m' <= Mensagem.enviado_em m) /\
               nome_do_usuario Cenario.banco_contatos (Resumo.outro_usuario_id r)
                               (Resumo.outro_usuario_nome r)).
Proof.
  split; [exact banco_contatos_ok|].
  split; [apply executa_select_conversas_ok|].
  exact (conversas_uma_linha_por_contato Cenario.banco_contatos 1 _
           banco_contatos_ok (executa_select_conversas_ok Cenario.banco_contatos 1)).
Defined.

(** *** C3 *)

Lemma sem_empate_contatos (p1 p2 : Z) (m1 m2 : Mensagem.t) :
  trocada Cenario.banco_contatos p1 p2 m1 -> trocada Cenario.banco_contatos p1 p2 m2 ->
  Mensagem.enviado_em m1 = Mensagem.enviado_em m2 -> m1 = m2.
Proof.
  intros [H1 _] [H2 _] E. vm_compute in H1, H2.
  destruct H1 as [<-|[<-|[]]], H2 as [<-|[<-|[]]]; try reflexivity; discriminate E.
Qed.

(** C3, an instance: Alice and Bob after one message, asked both ways. *)
Lemma conversa_simetrica_exemplo :
  banco_ok Cenario.banco_contatos /\
  (forall saida, select_conversa Cenario.banco_contatos 1 2 saida <->
                 select_conversa Cenario.banco_contatos 2 1 saida) /\
  (forall s1 s2, select_conversa Cenario.banco_contatos 1 2 s1 ->
                 select_conversa Cenario.banco_contatos 2 1 s2 -> s1 = s2).
Proof.
  split; [exact banco_contatos_ok|].
  destruct (conversa_simetrica Cenario.banco_contatos 1 2 banco_contatos_ok)
    as (_ & Hsim & _ & Hunica).
  split; [exact Hsim|]. apply Hunica. apply sem_empate_contatos.
Defined.

(** C3, as stated, fails: Alice and Bob wrote to each other at the same
    instant; the conversation asked as (1, 2) may come in one order and asked
    as (2, 1) in the other, both ascending by [enviado_em]. *)
Lemma conversa_com_empate_em_duas_ordens :
  alcancavel Json.parse Escreve.stringify None (Cenario.estado Cenario.empate) /\
  select_conversa Cenario.banco_empate 1 2
    [Conversa.mk Cenario.a "Alice" "Bob"; Conversa.mk Cenario.b "Bob" "Alice"] /\
  select_conversa Cenario.banco_empate 2 1
    [Conversa.mk Cenario.b "Bob" "Alice"; Conversa.mk Cenario.a "Alice" "Bob"] /\
  [Conversa.mk Cenario.a "Alice" "Bob"; Conversa.mk Cenario.b "Bob" "Alice"]
  <> [Conversa.mk Cenario.b "Bob" "Alice"; Conversa.mk Cenario.a "Alice" "Bob"].
Proof.
  split; [apply cenario_alcancavel; vm_compute; discriminate|].
  assert (H12 : linhas_conversa Cenario.banco_empate 1 2
                = [Conversa.mk Cenario.a "Alice" "Bob"; Conversa.mk Cenario.b "Bob" "Alice"])
    by (vm_compute; reflexivity).
  assert (H21 : linhas_conversa Cenario.banco_empate 2 1
                = [Conversa.mk Cenario.a "Alice" "Bob"; Conversa.mk Cenario.b "Bob" "Alice"])
    by (vm_compute; reflexivity).
  split; [|split].
  - unfold select_conversa. rewrite H12. split; [apply Permutation_refl|].
    repeat constructor.
  - unfold select_conversa. rewrite H21. split; [apply perm_swap|].
    repeat constructor.
  - discriminate.
Qed.

(** *** C8 *)

Lemma sem_empate_de_texto_contatos (c : Z) (m1 m2 : Mensagem.t) :
  trocada Cenario.banco_contatos 1 c m1 -> trocada Cenario.banco_contatos 1 c m2 ->
  Mensagem.enviado_em m1 = Mensagem.enviado_em m2 ->
  Mensagem.texto m1 = Mensagem.texto m2.
Proof.
  intros H1 H2 E. f_equal. eapply sem_empate_contatos; eassumption.
Qed.

(** C8, an instance: with no tie among the messages of Alice, every answer
    of her summary is the answer of the reference execution. *)
Lemma conversas_deterministas_sem_empate_exemplo :
  banco_ok Cenario.banco_contatos /\
  (forall saida, select_conversas Cenario.banco_contatos 1 saida ->
     saida = executa_select_conversas Cenario.banco_contatos 1).
Proof.
  split; [exact banco_contatos_ok|]. intros saida H.
  apply (conversas_deterministas_sem_empate Cenario.banco_contatos 1
           banco_contatos_ok sem_empate_de_texto_contatos saida _ H).
  apply executa_select_conversas_ok.
Defined.

(** C8, as stated, fails: after Alice and Bob wrote to each other at the
    same instant, the summary of Alice may show either message for Bob; the
    query names no column that would choose between them. *)
Lemma conversas_com_empate_em_duas_respostas :
  alcancavel Json.parse Escreve.stringify None (Cenario.estado Cenario.empate) /\
  select_conversas Cenario.banco_empate 1 [Resumo.mk 2 "Bob" "a" 10] /\
  select_conversas Cenario.banco_empate 1 [Resumo.mk 2 "Bob" "b" 10] /\
  [Resumo.mk 2 "Bob" "a" 10] <> [Resumo.mk 2 "Bob" "b" 10].
Proof.
  split; [apply cenario_alcancavel; vm_compute; discriminate|].
  assert (Hl : linhas_sub Cenario.banco_empate 1
               = [Resumo.mk 2 "Bob" "a" 10; Resumo.mk 2 "Bob" "b" 10])
    by (vm_compute; reflexivity).
  split; [|split].
  - apply select_conversas_forma.
    exists [Resumo.mk 2 "Bob" "a" 10; Resumo.mk 2 "Bob" "b" 10].
    split; [|reflexivity]. rewrite Hl. split; [apply Permutation_refl|].
    repeat constructor.
  - apply select_conversas_forma.
    exists [Resumo.mk 2 "Bob" "b" 10; Resumo.mk 2 "Bob" "a" 10].
    split; [|reflexivity]. rewrite Hl. split; [apply perm_swap|].
    repeat constructor.
  - discriminate.
Qed.

(** *** C4 *)



(** *** C5 *)

(** C5, an instance: the handle 555-0001 is created once and refused the
    second time, and the list of users has one user with it. *)
Lemma telefone_em_uso_recusado_exemplo :
  post_usuarios 1 (Some "Alice") (Some "555-0001") (inicio None)
    = (Cenario.estado [POST_usuarios 1 (Some "Alice") (Some "555-0001")],
       mk_resposta 200 (json_usuario (Usuario.mk 1 "Alice" "555-0001" 1))) /\
  snd (post_usuarios 2 (Some "Alicia") (Some "555-0001")
         (Cenario.estado [POST_usuarios 1 (Some "Alice") (Some "555-0001")]))
    = mk_resposta 400 (json_erro "Usuário já existe ou erro ao criar") /\
  List.length
    (filter (fun x => String.eqb (Usuario.telefone x) "555-0001")
       (executa_select_usuarios
          (pool (fst (post_usuarios 2 (Some "Alicia") (Some "555-0001")
                        (Cenario.estado
                           [POST_usuarios 1 (Some "Alice") (Some "555-0001")]))))))
  = 1%nat.
Proof.
  assert (H1 : post_usuarios 1 (Some "Alice") (Some "555-0001") (inicio None)
               = (Cenario.estado [POST_usuarios 1 (Some "Alice") (Some "555-0001")],
                  mk_resposta 200 (json_usuario (Usuario.mk 1 "Alice" "555-0001" 1))))
    by (vm_compute; reflexivity).
  split; [exact H1|].
  destruct (proj2 telefone_em_uso_recusado _ _ _ _ _ _ H1 2 (Some "Alicia"))
    as (Hr & _ & Hl).
  split; [exact Hr|].
  apply (Hl (executa_select_usuarios _)). apply executa_select_usuarios_ok.
Defined.

(** *** C6 *)

(** C6, an instance: a socket registered under the ids 2 and 3 closes. *)
Lemma close_remove_todas_as_entradas_exemplo :
  registradas 0%nat (conexoes (Cenario.estado Cenario.duas_chaves))
    = [Js.chave_int 2; Js.chave_int 3] /\
  exists s',
    passo Json.parse Escreve.stringify (Cenario.estado Cenario.duas_chaves)
          (close 0%nat) s' /\
    registradas 0%nat (conexoes s') = [] /\
    Js.Map_get (Js.chave_int 1) (conexoes s') = Some 1%nat.
Proof.
  split; [vm_compute; reflexivity|].
  destruct (close_remove_todas_as_entradas Json.parse Escreve.stringify None
              (Cenario.estado Cenario.duas_chaves) 0%nat OPEN)
    as (s' & Hp & _ & Hr & _ & Hout & _).
  - apply cenario_alcancavel. vm_compute. discriminate.
  - vm_compute. reflexivity.
  - discriminate.
  - exists s'. split; [exact Hp|]. split; [exact Hr|].
    apply Hout; [discriminate | vm_compute; reflexivity].
Defined.

(** *** C7 *)

(** C7, an instance: Bob's client registers the number 2; the message of
    Alice is handed to his socket, serialized. *)
Lemma notificacao_entregue_ao_registrado_exemplo :
  Json.parse (Cenario.registrar "2")
    = Some (Js.Obj [("tipo", Js.Str "registrar");
                    ("usuario_id", Js.Num (Js.Finito (inject_Z 2)))]) /\
  enviados
    (notificarNovaMensagem Escreve.stringify Cenario.oi
       (fst (on_message Json.parse 0%nat (Cenario.registrar "2")
               (Cenario.estado (Cenario.contatos ++ [connection])))))
  = [(0%nat, Escreve.stringify Cenario.oi)].
Proof.
  assert (Hp : Json.parse (Cenario.registrar "2")
               = Some (Js.Obj [("tipo", Js.Str "registrar");
                               ("usuario_id", Js.Num (Js.Finito (inject_Z 2)))]))
    by (vm_compute; reflexivity).
  split; [exact Hp|].
  destruct (notificacao_entregue_ao_registrado Json.parse Escreve.stringify 0%nat
              (Cenario.registrar "2") (Cenario.estado (Cenario.contatos ++ [connection]))
              _ (Some (Js.Str "registrar")) (Some (Js.Num (Js.Finito (inject_Z 2)))) 2
              Hp eq_refl eq_refl eq_refl eq_refl)
    as (_ & _ & Hn & _).
  rewrite (Hn Cenario.oi eq_refl); [reflexivity|].
  vm_compute. reflexivity.
Defined.

(** *** C9 *)

(** C9, an instance: Bob's client registers the string "2"; the message of
    Alice to the user 2 is handed to no socket. *)
Lemma registro_com_outra_chave_nao_entrega_exemplo :
  Json.parse (Cenario.registrar (Cenario.aspas ++ "2" ++ Cenario.aspas))
    = Some (Js.Obj [("tipo", Js.Str "registrar"); ("usuario_id", Js.Str "2")]) /\
  enviados
    (notificarNovaMensagem Escreve.stringify Cenario.oi
       (Cenario.estado Cenario.bob_conectado_com_texto))
  = [].
Proof.
  assert (Hp : Json.parse (Cenario.registrar (Cenario.aspas ++ "2" ++ Cenario.aspas))
               = Some (Js.Obj [("tipo", Js.Str "registrar"); ("usuario_id", Js.Str "2")]))
    by (vm_compute; reflexivity).
  split; [exact Hp|].
  destruct (registro_com_outra_chave_nao_entrega Json.parse Escreve.stringify 0%nat
              (Cenario.registrar (Cenario.aspas ++ "2" ++ Cenario.aspas))
              (Cenario.estado (Cenario.contatos ++ [connection]))
              _ (Some (Js.Str "registrar")) (Some (Js.Str "2")) 2
              Hp eq_refl eq_refl eq_refl eq_refl)
    as (_ & Hn & _).
  assert (Hs : Cenario.estado Cenario.bob_conectado_com_texto
               = fst (on_message Json.parse 0%nat
                        (Cenario.registrar (Cenario.aspas ++ "2" ++ Cenario.aspas))
                        (Cenario.estado (Cenario.contatos ++ [connection]))))
    by (vm_compute; reflexivity).
  rewrite Hs, (Hn eq_refl Cenario.oi eq_refl). vm_compute. reflexivity.
Defined.

(** *** C10 *)

(** C10, an instance: a frame that stops after the opening brace. *)
Lemma frame_invalido_lanca_exemplo :
  Json.parse "{" = None /\
  on_message Json.parse 0%nat "{" (Cenario.estado [connection])
    = (Cenario.estado [connection], Some Js.SyntaxError).
Proof.
  split; [vm_compute; reflexivity|].
  apply (proj1 frame_invalido_lanca Json.parse Escreve.stringify 0%nat "{"
           (Cenario.estado [connection])).
  vm_compute. reflexivity.
Defined.

(** ** Further properties of the routes and of the store *)



Section Invariantes.

Variable JSON_parse : string -> option Js.valor.
Variable JSON_stringify : Mensagem.t -> string.

(** X2. In every state of a process started on no store, or on a store that
    satisfies the constraints of the schema, user ids, handles and message
    ids are unique, and the sender and the recipient of every stored message
    are stored users. *)
Theorem integridade_do_banco_mantida (existente : option banco) (s : servidor) :
  banco_ok (criarTabelas existente) ->
  alcancavel JSON_parse JSON_stringify existente s ->
  NoDup (map Usuario.id (usuarios (pool s))) /\
  NoDup (map Usuario.telefone (usuarios (pool s))) /\
  NoDup (map Mensagem.id (mensagens (pool s))) /\
  (forall m, In m (mensagens (pool s)) ->
     exists u1 u2, In u1 (usuarios (pool s)) /\ In u2 (usuarios (pool s)) /\
                   Usuario.id u1 = Mensagem.remetente_id m /\
                   Usuario.id u2 = Mensagem.destinatario_id m).
Proof.
  intros H0 Halc.
  pose proof (alcancavel_banco_ok JSON_parse JSON_stringify existente s H0 Halc) as Hok.
  split; [apply (pk_usuarios _ Hok)|]. split; [apply (unique_telefone _ Hok)|].
  split; [apply (pk_mensagens _ Hok)|].
  intros m Hm. pose proof (fk_remetente _ Hok) as Hr.
  pose proof (fk_destinatario _ Hok) as Hd. rewrite Forall_forall in Hr, Hd.
  specialize (Hr m Hm). specialize (Hd m Hm). rewrite in_map_iff in Hr, Hd.
  destruct Hr as (u1 & E1 & H1), Hd as (u2 & E2 & H2). exists u1, u2. auto.
Qed.

(** What one event does to the tables: at most one row is appended. *)
Lemma passo_tabelas s e s' :
  passo JSON_parse JSON_stringify s e s' ->
  exists us ms,
    usuarios (pool s') = usuarios (pool s) ++ us /\
    mensagens (pool s') = mensagens (pool s) ++ ms /\
    (List.length us + List.length ms <= 1)%nat.
Proof.
  assert (Hnada : forall s0 : servidor, pool s0 = pool s ->
            exists us ms,
              usuarios (pool s0) = usuarios (pool s) ++ us /\
              mensagens (pool s0) = mensagens (pool s) ++ ms /\
              (List.length us + List.length ms <= 1)%nat).
  { intros s0 ->. exists [], []. rewrite !app_nil_r. simpl. auto. }
  intro Hp. destruct Hp as [s agora nome telefone | s agora r d texto | s
                           | s ws frame s' Hws Hm | s ws Hws
                           | s ws estado s' Hws Hne Hc].
  - unfold post_usuarios.
    destruct (insert_usuarios agora nome telefone (pool s)) as [db [e|u]] eqn:E; simpl.
    + apply insert_usuarios_inl in E. destruct E as (-> & -> & _).
      exists [], []. rewrite !app_nil_r. simpl. auto.
    + apply insert_usuarios_inr in E. destruct E as (_ & _ & _ & _ & _ & _ & _ & ->).
      exists [u], []. rewrite app_nil_r. simpl. auto.
  - unfold post_mensagens.
    destruct (insert_mensagens agora r d texto (pool s)) as [db [e|m]] eqn:E; simpl.
    + apply insert_mensagens_inl in E. destruct E as (-> & -> & _).
      exists [], []. rewrite !app_nil_r. simpl. auto.
    + destruct (notificarNovaMensagem_resto JSON_stringify m (com_pool db s)) as (-> & _).
      apply insert_mensagens_inr in E.
      destruct E as (_ & _ & _ & _ & _ & _ & _ & _ & _ & ->).
      exists [], [m]. rewrite app_nil_r. simpl. auto.
  - now apply Hnada.
  - apply on_message_normal in Hm. destruct Hm as [->|(u & _ & ->)]; now apply Hnada.
  - now apply Hnada.
  - unfold on_close in Hc. destruct (on_close_de _ _ _ _). injection Hc as <- _.
    now apply Hnada.
Qed.

(** X3. The tables only grow: an event appends at most one row to one of
    them and changes or removes none, so the rows a process found when it
    started are, in every later state, the first rows of their tables. *)
Theorem tabelas_so_crescem (existente : option banco) (s : servidor) :
  alcancavel JSON_parse JSON_stringify existente s ->
  (exists us ms,
     usuarios (pool s) = usuarios (criarTabelas existente) ++ us /\
     mensagens (pool s) = mensagens (criarTabelas existente) ++ ms) /\
  (forall e s', passo JSON_parse JSON_stringify s e s' ->
     exists us ms,
       usuarios (pool s') = usuarios (pool s) ++ us /\
       mensagens (pool s') = mensagens (pool s) ++ ms /\
       (List.length us + List.length ms <= 1)%nat).
Proof.
  intro Halc. split; [|intros e s'; apply passo_tabelas].
  induction Halc as [|s e s' _ IH Hp].
  - exists [], []. now rewrite !app_nil_r.
  - destruct IH as (us & ms & Eu & Em).
    destruct (passo_tabelas s e s' Hp) as (us' & ms' & Eu' & Em' & _).
    exists (us ++ us'), (ms ++ ms'). rewrite Eu', Em', Eu, Em, !app_assoc. auto.
Qed.

End Invariantes.

(** ** Further properties of the registry and of the dispatch *)

Lemma readyState_OPEN (ws : socket) (s : servidor) :
  ready_state_eqb (readyState ws s) OPEN = true ->
  nth_error (sockets s) ws = Some OPEN.
Proof.
  unfold readyState. intro H.
  destruct (nth_error (sockets s) ws) as [e|] eqn:E.
  - rewrite (nth_error_nth _ _ CLOSED E) in H. now destruct e.
  - apply nth_error_None in E. rewrite (nth_overflow _ _ E) in H. discriminate.
Qed.

Lemma length_muda (ws : nat) (e : ready_state) (l : list ready_state) :
  (ws < List.length l)%nat ->
  List.length (firstn ws l ++ e :: skipn (S ws) l) = List.length l.
Proof.
  intro H. rewrite length_app, length_firstn. cbn [List.length].
  rewrite length_skipn. lia.
Qed.

(** At most one entry of a map with distinct keys has a given key. *)
Lemma chaves_distintas_uma {V : Type} (m : Js.MapData V) (k : Js.chave) :
  chaves_distintas m ->
  (List.length (filter (fun kv => Js.same_value_zero (fst kv) k) (Js.Map_entries m))
   <= 1)%nat.
Proof.
  induction m as [|[[k' v']|] m IH]; simpl; [lia| |exact IH].
  intros [Hk Hd]. destruct (Js.same_value_zero k' k) eqn:E; [|now apply IH].
  simpl. apply Map_get_None in Hk.
  assert (Hvazio : filter (fun kv => Js.same_value_zero (fst kv) k) (Js.Map_entries m)
                   = []).
  { clear IH Hd. induction (Js.Map_entries m) as [|[k2 v2] l IHl]; [reflexivity|].
    inversion Hk as [|? ? H2 Hl]; subst. simpl in *.
    destruct (Js.same_value_zero k2 k) eqn:E2; [|now apply IHl].
    rewrite same_value_zero_sym in E.
    now rewrite (same_value_zero_trans _ _ _ E2 E) in H2. }
  rewrite Hvazio. simpl. lia.
Qed.

(** Setting a key that has an entry adds no entry. *)
Lemma Map_set_existente {V : Type} (m : Js.MapData V) (k : Js.chave) (v v0 : V) :
  Js.Map_get k m = Some v0 ->
  List.length (Js.Map_entries (Js.Map_set k v m)) = List.length (Js.Map_entries m).
Proof.
  induction m as [|[[k' v']|] m IH]; simpl; [discriminate| |exact IH].
  destruct (Js.same_value_zero k' k); simpl; [reflexivity|].
  intro H. now rewrite IH.
Qed.

Section Despacho.

Variable JSON_parse : string -> option Js.valor.
Variable JSON_stringify : Mensagem.t -> string.

(** What one event hands to sockets: nothing, or the message it has just
    stored, to the open socket that is the entry of its recipient. *)
Lemma passo_envios s e s' :
  passo JSON_parse JSON_stringify s e s' ->
  enviados s' = enviados s \/
  exists m ws,
    In m (mensagens (pool s')) /\ ~ In m (mensagens (pool s)) /\
    Js.Map_get (Js.chave_int (Mensagem.destinatario_id m)) (conexoes s) = Some ws /\
    nth_error (sockets s) ws = Some OPEN /\
    enviados s' = enviados s ++ [(ws, JSON_stringify m)].
Proof.
  intro Hp. destruct Hp as [s agora nome telefone | s agora r d texto | s
                           | s ws frame s' Hws Hm | s ws Hws
                           | s ws estado s' Hws Hne Hc].
  - left. unfold post_usuarios. now destruct (insert_usuarios _ _ _ _) as [db [e|u]].
  - unfold post_mensagens.
    destruct (insert_mensagens agora r d texto (pool s)) as [db [e|m]] eqn:E; simpl;
      [now left|].
    apply insert_mensagens_inr in E.
    destruct E as (_ & _ & _ & _ & _ & _ & Hid & _ & Hnid & ->).
    unfold notificarNovaMensagem. cbn [conexoes com_pool].
    destruct (Js.Map_get _ (conexoes s)) as [ws|] eqn:G; [|now left].
    destruct (ready_state_eqb _ OPEN) eqn:R; [|now left].
    right. exists m, ws. cbn [pool mensagens enviados com_pool].
    split; [apply in_or_app; right; now left|].
    split; [intro Hin; apply Hnid; now apply in_map|].
    split; [exact G|]. split; [|reflexivity].
    apply readyState_OPEN in R. exact R.
  - now left.
  - left. apply on_message_normal in Hm. now destruct Hm as [->|(u & _ & ->)].
  - now left.
  - left. unfold on_close in Hc. destruct (on_close_de _ _ _ _). now injection Hc as <- _.
Qed.

Lemma passo_sockets s e s' :
  passo JSON_parse JSON_stringify s e s' ->
  (List.length (sockets s) <= List.length (sockets s'))%nat.
Proof.
  intro Hp. destruct Hp as [s agora nome telefone | s agora r d texto | s
                           | s ws frame s' Hws Hm | s ws Hws
                           | s ws estado s' Hws Hne Hc].
  - unfold post_usuarios. destruct (insert_usuarios _ _ _ _) as [db [e|u]]; simpl; lia.
  - unfold post_mensagens. destruct (insert_mensagens _ _ _ _ _) as [db [e|m]]; simpl;
      [lia|].
    destruct (notificarNovaMensagem_resto JSON_stringify m (com_pool db s))
      as (_ & _ & -> & _). simpl. lia.
  - simpl. rewrite length_app. lia.
  - apply on_message_normal in Hm. destruct Hm as [->|(u & _ & ->)]; simpl; lia.
  - simpl. rewrite length_muda; [lia|]. apply nth_error_Some. congruence.
  - unfold on_close in Hc. destruct (on_close_de _ _ _ _). injection Hc as <- _.
    simpl. rewrite length_muda; [lia|]. apply nth_error_Some. congruence.
Qed.

(** X4. The dispatch hands out nothing but stored messages: in every state
    of a running process, each frame that was given to [ws.send] is the
    serialization of a row of [mensagens], and went to a socket the server
    had accepted. An event sends at most one frame: the message the event
    has just stored, to the socket that is the entry of its recipient, and
    only when that socket is open. *)
Theorem so_envia_mensagens_gravadas (existente : option banco) (s : servidor) :
  alcancavel JSON_parse JSON_stringify existente s ->
  Forall (fun wf => (fst wf < List.length (sockets s))%nat /\
                    exists m, In m (mensagens (pool s)) /\ snd wf = JSON_stringify m)
         (enviados s) /\
  (forall e s', passo JSON_parse JSON_stringify s e s' ->
     enviados s' = enviados s \/
     exists m ws,
       In m (mensagens (pool s')) /\ ~ In m (mensagens (pool s)) /\
       Js.Map_get (Js.chave_int (Mensagem.destinatario_id m)) (conexoes s) = Some ws /\
       nth_error (sockets s) ws = Some OPEN /\
       enviados s' = enviados s ++ [(ws, JSON_stringify m)]).
Proof.
  intro Halc. split; [|intros e s'; apply passo_envios].
  induction Halc as [|s e s' _ IH Hp]; [constructor|].
  pose proof (passo_sockets s e s' Hp) as Hlen.
  destruct (passo_tabelas JSON_parse JSON_stringify s e s' Hp) as (us & ms & _ & Em & _).
  assert (Hantes : Forall (fun wf => (fst wf < List.length (sockets s'))%nat /\
                     exists m, In m (mensagens (pool s')) /\ snd wf = JSON_stringify m)
                     (enviados s)).
  { eapply Forall_impl; [|exact IH]. intros wf (Hw & m & Hm & Hf).
    split; [lia|]. exists m. split; [|exact Hf]. rewrite Em. apply in_or_app. now left. }
  destruct (passo_envios s e s' Hp) as [->|(m & ws & Hm & _ & _ & Hws & ->)];
    [exact Hantes|].
  apply Forall_app. split; [exact Hantes|]. constructor; [|constructor].
  split; [|now exists m]. simpl.
  assert ((ws < List.length (sockets s))%nat) by (apply nth_error_Some; congruence). lia.
Qed.

(** X5. In every state of a running process the map of connections has at
    most one entry per key, and every socket in it was accepted by the
    server and has not closed. *)
Theorem registro_so_tem_sockets_abertos (existente : option banco) (s : servidor) :
  alcancavel JSON_parse JSON_stringify existente s ->
  (forall k ws, Js.Map_get k (conexoes s) = Some ws ->
     exists e, nth_error (sockets s) ws = Some e /\ e <> CLOSED) /\
  (forall k,
     (List.length (filter (fun kv => Js.same_value_zero (fst kv) k)
                          (Js.Map_entries (conexoes s))) <= 1)%nat).
Proof.
  intro Halc. pose proof (alcancavel_registro_ok _ _ _ _ Halc) as Hok. split.
  - intros k ws Hg. apply Map_get_Some in Hg. destruct Hg as (k' & Hin & _).
    pose proof (ok_abertos s Hok) as Ha. rewrite Forall_forall in Ha.
    exact (Ha _ Hin).
  - intro k. apply chaves_distintas_uma. apply (ok_chaves s Hok).
Qed.

(** X6. A registration under an id that another socket holds replaces that
    socket: the id then leads to the new socket, the map has as many entries
    as before, and when the old socket closes afterwards the entry of the
    new one stays. *)
Theorem novo_registro_substitui_o_anterior (existente : option banco) (s : servidor)
    (ws1 ws2 : socket) (frame : string) (dados : Js.valor)
    (tipo usuario_id : option Js.valor) (d : Z) :
  alcancavel JSON_parse JSON_stringify existente s ->
  Js.Map_get (Js.chave_int d) (conexoes s) = Some ws1 ->
  nth_error (sockets s) ws2 = Some OPEN ->
  ws1 <> ws2 ->
  JSON_parse frame = Some dados ->
  Js.propriedade "tipo" dados = inr tipo ->
  Js.igual_a_texto tipo "registrar" = true ->
  Js.propriedade "usuario_id" dados = inr usuario_id ->
  Js.same_value_zero (Js.chave_de usuario_id (objetos s)) (Js.chave_int d) = true ->
  exists s1,
    passo JSON_parse JSON_stringify s (message ws2 frame) s1 /\
    Js.Map_get (Js.chave_int d) (conexoes s1) = Some ws2 /\
    List.length (Js.Map_entries (conexoes s1)) = List.length (Js.Map_entries (conexoes s)) /\
    exists s2,
      passo JSON_parse JSON_stringify s1 (close ws1) s2 /\
      Js.Map_get (Js.chave_int d) (conexoes s2) = Some ws2.
Proof.
  intros Halc Hg Hws2 Hne Hp Ht Hr Hu Hk.
  pose proof (alcancavel_registro_ok _ _ _ _ Halc) as Hok.
  set (k := Js.chave_de usuario_id (objetos s)) in *.
  assert (Himp : Js.template_lanca k = false)
    by (destruct k; simpl in *; try reflexivity; discriminate).
  assert (Hm : on_message JSON_parse ws2 frame s = (registrado k ws2 s, None)).
  { rewrite (on_message_registra JSON_parse ws2 frame s dados tipo usuario_id Hp Ht Hr Hu).
    fold k. now rewrite Himp. }
  assert (Hp1 : passo JSON_parse JSON_stringify s (message ws2 frame) (registrado k ws2 s))
    by now constructor.
  assert (Halc1 : alcancavel JSON_parse JSON_stringify existente (registrado k ws2 s))
    by (econstructor; eassumption).
  pose proof (alcancavel_registro_ok _ _ _ _ Halc1) as Hok1.
  assert (Hg1 : Js.Map_get (Js.chave_int d) (conexoes (registrado k ws2 s)) = Some ws2)
    by (simpl; now rewrite Map_get_set, Hk).
  exists (registrado k ws2 s). split; [exact Hp1|]. split; [exact Hg1|]. split.
  - simpl. apply (Map_set_existente _ _ _ ws1).
    now rewrite (Map_get_mesma_chave (conexoes s) k (Js.chave_int d) Hk).
  - assert (Hab : exists e, nth_error (sockets s) ws1 = Some e /\ e <> CLOSED).
    { apply Map_get_Some in Hg. destruct Hg as (k' & Hin & _).
      pose proof (ok_abertos s Hok) as Ha. rewrite Forall_forall in Ha.
      exact (Ha _ Hin). }
    destruct Hab as (e & He & Hcl).
    destruct (on_close_ok ws1 e (registrado k ws2 s) Hok1 He) as [Ec _].
    eexists. split; [eapply passo_close; [exact He | exact Hcl | exact Ec]|].
    cbn [conexoes com_conexoes].
    change (conexoes (registrado k ws2 s)) with (Js.Map_set k ws2 (conexoes s)).
    rewrite Map_get_sem_socket by (apply Map_set_distintas, (ok_chaves s Hok)).
    change (Js.Map_set k ws2 (conexoes s)) with (conexoes (registrado k ws2 s)).
    rewrite Hg1. destruct (Nat.eqb ws2 ws1) eqn:E; [|reflexivity].
    apply Nat.eqb_eq in E. congruence.
Qed.

(** X7. Between the start of the closing handshake of a socket and its close
    event the entry of the socket is still in the map, but a message for its
    user is handed to no socket: the route stores the message and answers
    200, and nothing is sent. *)
Theorem mensagem_nao_enviada_durante_o_fechamento (s : servidor) (ws : socket) (d : Z) :
  nth_error (sockets s) ws = Some OPEN ->
  Js.Map_get (Js.chave_int d) (conexoes s) = Some ws ->
  passo JSON_parse JSON_stringify s (closing ws) (com_ready_state ws CLOSING s) /\
  Js.Map_get (Js.chave_int d) (conexoes (com_ready_state ws CLOSING s)) = Some ws /\
  forall agora r dd texto db m,
    insert_mensagens agora r dd texto (pool s) = (db, inr m) ->
    Mensagem.destinatario_id m = d ->
    post_mensagens JSON_stringify agora r dd texto (com_ready_state ws CLOSING s)
    = (com_pool db (com_ready_state ws CLOSING s), mk_resposta 200 (json_mensagem m)).
Proof.
  intros Hws Hg. split; [now constructor|]. split; [exact Hg|].
  intros agora r dd texto db m E <-. unfold post_mensagens.
  cbn [pool com_ready_state com_sockets]. rewrite E. f_equal.
  unfold notificarNovaMensagem. cbn [conexoes com_pool com_ready_state com_sockets].
  rewrite Hg.
  assert (Hst : readyState ws (com_pool db (com_ready_state ws CLOSING s)) = CLOSING).
  { unfold readyState. apply nth_error_nth.
    change (sockets (com_pool db (com_ready_state ws CLOSING s)))
      with (sockets (com_ready_state ws CLOSING s)).
    rewrite nth_error_com_ready_state by (apply nth_error_Some; congruence).
    now rewrite Nat.eqb_refl. }
  now rewrite Hst.
Qed.

End Despacho.

(** ** Further properties of the message callback *)

(** X8. The message callback throws in three cases and no other: the frame
    is no JSON text; the frame is the JSON text [null]; or the frame asks for
    a registration under an id that cannot be converted to a string (an
    object with a property [toString], or an array that holds one) - and then
    the entry was set before the exception. In the first two cases the state
    is untouched, and a JSON text that asks for no registration is ignored
    without an exception. *)
Theorem on_message_lanca_exatamente (JSON_parse : string -> option Js.valor)
    (ws : socket) (frame : string) (s : servidor) :
  (snd (on_message JSON_parse ws frame s) <> None <->
   JSON_parse frame = None \/ JSON_parse frame = Some Js.Null \/
   exists dados tipo usuario_id,
     JSON_parse frame = Some dados /\
     Js.propriedade "tipo" dados = inr tipo /\
     Js.igual_a_texto tipo "registrar" = true /\
     Js.propriedade "usuario_id" dados = inr usuario_id /\
     Js.template_lanca (Js.chave_de usuario_id (objetos s)) = true /\
     fst (on_message JSON_parse ws frame s)
       = registrado (Js.chave_de usuario_id (objetos s)) ws s) /\
  (JSON_parse frame = None \/ JSON_parse frame = Some Js.Null ->
   fst (on_message JSON_parse ws frame s) = s) /\
  (forall dados tipo,
     JSON_parse frame = Some dados ->
     Js.propriedade "tipo" dados = inr tipo ->
     Js.igual_a_texto tipo "registrar" = false ->
     on_message JSON_parse ws frame s = (s, None)).
Proof.
  split; [|split].
  - unfold on_message. destruct (JSON_parse frame) as [dados|] eqn:Ep.
    + destruct (Js.propriedade "tipo" dados) as [e|tipo] eqn:Et.
      * split; [|discriminate]. intros _. right. left.
        destruct dados; simpl in Et; try discriminate. reflexivity.
      * destruct (Js.igual_a_texto tipo "registrar") eqn:Er.
        -- destruct (Js.propriedade "usuario_id" dados) as [e|usuario_id] eqn:Eu.
           ++ destruct dados; simpl in Et, Eu; discriminate.
           ++ destruct (Js.template_lanca _) eqn:Ei; simpl.
              ** split; [|discriminate]. intros _. right. right.
                 exists dados, tipo, usuario_id. repeat split; auto.
              ** split; [intro H; now contradiction H|].
                 intros [H|[H|(d0 & t0 & u0 & H & Ht0 & _ & Hu0 & Hi0 & _)]].
                 --- discriminate.
                 --- injection H as ->. discriminate.
                 --- injection H as <-. rewrite Eu in Hu0. injection Hu0 as <-.
                     congruence.
        -- simpl. split; [intro H; now contradiction H|].
           intros [H|[H|(d0 & t0 & u0 & H & Ht0 & Hr0 & _)]].
           ++ discriminate.
           ++ injection H as ->. discriminate.
           ++ injection H as <-. rewrite Et in Ht0. injection Ht0 as <-. congruence.
    + split; [auto | discriminate].
  - unfold on_message. intros [->| ->]; reflexivity.
  - intros dados tipo Hp Ht Hr. unfold on_message. now rewrite Hp, Ht, Hr.
Qed.

(** ** Further properties of the queries *)

Lemma filter_nenhum {A : Type} (f : A -> bool) (l : list A) :
  (forall x, In x l -> f x = false) -> filter f l = [].
Proof.
  induction l as [|x l IH]; simpl; intro H; [reflexivity|].
  rewrite (H x) by now left. apply IH. intros y Hy. apply H. now right.
Qed.

Lemma order_by_nil {A : Type} (le : A -> A -> bool) (saida : list A) :
  order_by le [] saida <-> saida = [].
Proof.
  split.
  - intros [Hp _]. now apply Permutation_nil.
  - intros ->. split; constructor.
Qed.

(** X9. The routes that read answer 200 with an empty list, not an error,
    when there is nothing to show: the summary of a user who took part in no
    message (also of an id that is no user), and the conversation of two
    users who exchanged none. A path segment that is no integer is answered
    500. *)
Theorem leituras_sem_linhas (s : servidor) :
  (forall u r,
     INT_MIN <= u <= INT_MAX ->
     (forall m, In m (mensagens (pool s)) ->
                Mensagem.remetente_id m <> u /\ Mensagem.destinatario_id m <> u) ->
     (get_conversas (PInt u) s r <-> r = mk_resposta 200 (json_conversas []))) /\
  (forall u v r,
     INT_MIN <= u <= INT_MAX -> INT_MIN <= v <= INT_MAX ->
     (forall m, ~ trocada (pool s) u v m) ->
     (get_mensagens (PInt u) (PInt v) s r <-> r = mk_resposta 200 (json_conversa []))) /\
  (forall r, get_conversas PInvalido s r <->
             r = mk_resposta 500 (json_erro "Erro ao buscar conversas")) /\
  (forall p r, get_mensagens PInvalido p s r <->
               r = mk_resposta 500 (json_erro "Erro ao buscar mensagens")) /\
  (forall u r, INT_MIN <= u <= INT_MAX ->
               (get_mensagens (PInt u) PInvalido s r <->
                r = mk_resposta 500 (json_erro "Erro ao buscar mensagens"))).
Proof.
  assert (Hbind : forall z, INT_MIN <= z <= INT_MAX -> bind_int (PInt z) = inr (Some z)).
  { intros z Hz. simpl.
    replace ((INT_MIN <=? z) && (z <=? INT_MAX)) with true; [reflexivity|].
    symmetry. apply andb_true_iff. split; apply Z.leb_le; lia. }
  split; [|split; [|split; [|split]]].
  - intros u r Hu Hnada. unfold get_conversas. rewrite (Hbind u Hu).
    assert (Hl : linhas_sub (pool s) u = []).
    { unfold linhas_sub. rewrite filter_nenhum; [reflexivity|].
      intros [[m u1] u2] Hin. apply In_juncao in Hin. destruct Hin as (Hm & _).
      destruct (Hnada m Hm) as [H1 H2]. unfold envolve.
      apply orb_false_iff. split; apply Z.eqb_neq; assumption. }
    split.
    + intros (saida & Hs & ->). apply select_conversas_forma in Hs.
      destruct Hs as (ord & Ho & ->). rewrite Hl in Ho. apply order_by_nil in Ho.
      now subst ord.
    + intros ->. exists []. split; [|reflexivity]. apply select_conversas_forma.
      exists []. split; [|reflexivity]. rewrite Hl. now apply order_by_nil.
  - intros u v r Hu Hv Hnada. unfold get_mensagens. rewrite (Hbind u Hu), (Hbind v Hv).
    assert (Hl : linhas_conversa (pool s) u v = []).
    { unfold linhas_conversa. rewrite filter_nenhum; [reflexivity|].
      intros [[m u1] u2] Hin. apply In_juncao in Hin. destruct Hin as (Hm & _).
      destruct (entre u v m) eqn:E; [|reflexivity].
      exfalso. apply (Hnada m). apply entre_trocada. auto. }
    unfold select_conversa. rewrite Hl. split.
    + intros (saida & Hs & ->). apply order_by_nil in Hs. now subst saida.
    + intros ->. exists []. split; [now apply order_by_nil | reflexivity].
  - intro r. reflexivity.
  - intros p r. reflexivity.
  - intros u r Hu. unfold get_mensagens. rewrite (Hbind u Hu). reflexivity.
Qed.

(** The row the summary shows for a user comes from a message that no
    message exchanged with that user exceeds in [enviado_em]. *)
Lemma resumo_maximo (db : banco) (p1 : Z) (saida : list Resumo.t) (r : Resumo.t) :
  banco_ok db -> select_conversas db p1 saida -> In r saida ->
  exists m, trocada db p1 (Resumo.outro_usuario_id r) m /\
            Resumo.ultima_mensagem r = Mensagem.texto m /\
            Resumo.enviado_em r = Mensagem.enviado_em m /\
            forall m', trocada db p1 (Resumo.outro_usuario_id r) m' ->
                       Mensagem.enviado_em m' <= Mensagem.enviado_em m.
Proof.
  intros Hok H Hr. apply select_conversas_forma in H. destruct H as (ord & Hord & ->).
  pose proof Hord as [_ Hs].
  assert (Hin : In r (linhas_sub db p1)).
  { apply (order_by_In _ _ _ r Hord).
    now apply (distinct_on_In Resumo.outro_usuario_id
                 por_outro_usuario_e_enviado_em_desc externa_chave). }
  destruct (linhas_sub_In db p1 r Hin) as (m & Hm & Ht & He & _).
  exists m. split; [exact Hm|]. split; [exact Ht|]. split; [exact He|].
  intros m' Hm'.
  destruct (linhas_sub_cobre db p1 _ m' Hok Hm') as (x & Hx & Hc & _ & Hex).
  apply (order_by_In _ _ _ x Hord) in Hx.
  pose proof (distinct_on_antes Resumo.outro_usuario_id
                por_outro_usuario_e_enviado_em_desc externa_chave externa_refl
                ord r x Hs Hr Hx Hc) as Hle.
  apply externa_empate in Hle; [|now symmetry]. lia.
Qed.

(** X10. The summary and the conversation agree: the row that the summary
    of [p1] shows for the user [c] carries the text and the timestamp of a
    message of the conversation of [p1] with [c], and no message of that
    conversation is later; and the summary has a row for [c] exactly when
    the conversation is not empty. *)
Theorem resumo_concorda_com_a_conversa (db : banco) (p1 c : Z)
    (saida : list Resumo.t) (conversa : list Conversa.t) :
  banco_ok db ->
  select_conversas db p1 saida ->
  select_conversa db p1 c conversa ->
  (forall r, In r saida -> Resumo.outro_usuario_id r = c ->
     (exists x, In x conversa /\
                Mensagem.texto (Conversa.m x) = Resumo.ultima_mensagem r /\
                Mensagem.enviado_em (Conversa.m x) = Resumo.enviado_em r) /\
     (forall x, In x conversa ->
                Mensagem.enviado_em (Conversa.m x) <= Resumo.enviado_em r)) /\
  (In c (map Resumo.outro_usuario_id saida) <-> conversa <> []).
Proof.
  intros Hok Hs Hc.
  assert (Hconv : forall m, trocada db p1 c m <-> exists x, In x conversa /\ Conversa.m x = m).
  { intro m. rewrite <- entre_trocada, <- filter_In.
    rewrite <- (linhas_conversa_mensagens db p1 c Hok), in_map_iff.
    split; intros (x & Hx & Hin); exists x.
    - split; [|exact Hx]. now apply (order_by_In _ _ _ x Hc).
    - split; [exact Hin|]. now apply (order_by_In _ _ _ x Hc) in Hx. }
  split.
  - intros r Hr <-. destruct (resumo_maximo db p1 saida r Hok Hs Hr)
      as (m & Hm & Ht & He & Hmax).
    split.
    + apply Hconv in Hm. destruct Hm as (x & Hx & <-). exists x. auto.
    + intros x Hx. rewrite He. apply Hmax. apply Hconv. now exists x.
  - split.
    + rewrite in_map_iff. intros (r & <- & Hr).
      destruct (resumo_maximo db p1 saida r Hok Hs Hr) as (m & Hm & _).
      apply Hconv in Hm. destruct Hm as (x & Hx & _). intros ->. contradiction.
    + intro Hne. destruct conversa as [|x l]; [contradiction|].
      assert (Hm : trocada db p1 c (Conversa.m x))
        by (apply Hconv; exists x; split; [now left | reflexivity]).
      destruct (linhas_sub_cobre db p1 c _ Hok Hm) as (y & Hy & Hk & _).
      apply select_conversas_forma in Hs. destruct Hs as (ord & Hord & ->).
      apply (order_by_In _ _ _ y Hord) in Hy.
      destruct (distinct_on_cobre Resumo.outro_usuario_id ord y Hy) as (r & Hr & Hkr).
      rewrite in_map_iff. exists r. split; [congruence | exact Hr].
Qed.

(** ** The route and the dispatch together *)

Section Entrega.

Variable JSON_stringify : Mensagem.t -> string.


End Entrega.

(** ** Instances *)


(** X2, an instance: the store after Alice wrote to Bob and to Carol. *)
Lemma integridade_do_banco_mantida_exemplo :
  alcancavel Json.parse Escreve.stringify None (Cenario.estado Cenario.contatos) /\
  NoDup (map Usuario.id (usuarios Cenario.banco_contatos)) /\
  NoDup (map Mensagem.id (mensagens Cenario.banco_contatos)).
Proof.
  assert (H : alcancavel Json.parse Escreve.stringify None (Cenario.estado Cenario.contatos))
    by (apply cenario_alcancavel; vm_compute; discriminate).
  split; [exact H|].
  destruct (integridade_do_banco_mantida Json.parse Escreve.stringify None
              (Cenario.estado Cenario.contatos) banco_vazio_ok H)
    as (H1 & _ & H3 & _).
  split; [exact H1 | exact H3].
Defined.

(** X3, an instance: one more message while Bob's client is registered. *)
Lemma tabelas_so_crescem_exemplo :
  alcancavel Json.parse Escreve.stringify None (Cenario.estado Cenario.bob_conectado) /\
  exists us ms,
    usuarios (pool (Cenario.estado Reconexao.entregue))
      = usuarios (pool (Cenario.estado Cenario.bob_conectado)) ++ us /\
    mensagens (pool (Cenario.estado Reconexao.entregue))
      = mensagens (pool (Cenario.estado Cenario.bob_conectado)) ++ ms.
Proof.
  assert (H : alcancavel Json.parse Escreve.stringify None
                (Cenario.estado Cenario.bob_conectado))
    by (apply cenario_alcancavel; vm_compute; discriminate).
  split; [exact H|].
  destruct (proj2 (tabelas_so_crescem Json.parse Escreve.stringify None
                     (Cenario.estado Cenario.bob_conectado) H)
                  (POST_mensagens 30 (PInt 1) (PInt 2) (Some "tudo bem?"))
                  (Cenario.estado Reconexao.entregue))
    as (us & ms & Hu & Hm & _).
  - apply executa_passo. vm_compute. reflexivity.
  - exists us, ms. split; assumption.
Defined.

(** X4, an instance: what Bob's socket was handed is the stored message. *)
Lemma so_envia_mensagens_gravadas_exemplo :
  alcancavel Json.parse Escreve.stringify None (Cenario.estado Reconexao.entregue) /\
  enviados (Cenario.estado Reconexao.entregue)
    = [(0%nat, Escreve.stringify Reconexao.tudo_bem)] /\
  Forall (fun wf =>
            (fst wf < List.length (sockets (Cenario.estado Reconexao.entregue)))%nat /\
            exists m, In m (mensagens (pool (Cenario.estado Reconexao.entregue))) /\
                      snd wf = Escreve.stringify m)
         (enviados (Cenario.estado Reconexao.entregue)).
Proof.
  assert (H : alcancavel Json.parse Escreve.stringify None
                (Cenario.estado Reconexao.entregue))
    by (apply cenario_alcancavel; vm_compute; discriminate).
  split; [exact H|]. split; [vm_compute; reflexivity|].
  exact (proj1 (so_envia_mensagens_gravadas Json.parse Escreve.stringify None _ H)).
Defined.

(** X5, an instance: two clients, the first registered under two ids. *)
Lemma registro_so_tem_sockets_abertos_exemplo :
  alcancavel Json.parse Escreve.stringify None (Cenario.estado Cenario.duas_chaves) /\
  Js.Map_get (Js.chave_int 3) (conexoes (Cenario.estado Cenario.duas_chaves))
    = Some 0%nat /\
  exists e, nth_error (sockets (Cenario.estado Cenario.duas_chaves)) 0 = Some e /\
            e <> CLOSED.
Proof.
  assert (H : alcancavel Json.parse Escreve.stringify None
                (Cenario.estado Cenario.duas_chaves))
    by (apply cenario_alcancavel; vm_compute; discriminate).
  assert (G : Js.Map_get (Js.chave_int 3) (conexoes (Cenario.estado Cenario.duas_chaves))
              = Some 0%nat) by (vm_compute; reflexivity).
  split; [exact H|]. split; [exact G|].
  exact (proj1 (registro_so_tem_sockets_abertos Json.parse Escreve.stringify None _ H)
               _ _ G).
Defined.

(** X6, an instance: a second client registers as Bob, then the first closes. *)
Lemma novo_registro_substitui_o_anterior_exemplo :
  Js.Map_get (Js.chave_int 2) (conexoes (Cenario.estado Reconexao.dois_sockets))
    = Some 0%nat /\
  exists s1,
    passo Json.parse Escreve.stringify (Cenario.estado Reconexao.dois_sockets)
          (message 1%nat (Cenario.registrar "2")) s1 /\
    Js.Map_get (Js.chave_int 2) (conexoes s1) = Some 1%nat /\
    exists s2,
      passo Json.parse Escreve.stringify s1 (close 0%nat) s2 /\
      Js.Map_get (Js.chave_int 2) (conexoes s2) = Some 1%nat.
Proof.
  assert (G : Js.Map_get (Js.chave_int 2) (conexoes (Cenario.estado Reconexao.dois_sockets))
              = Some 0%nat) by (vm_compute; reflexivity).
  split; [exact G|].
  destruct (novo_registro_substitui_o_anterior Json.parse Escreve.stringify None
              (Cenario.estado Reconexao.dois_sockets) 0%nat 1%nat (Cenario.registrar "2")
              (Js.Obj [("tipo", Js.Str "registrar");
                       ("usuario_id", Js.Num (Js.Finito (inject_Z 2)))])
              (Some (Js.Str "registrar")) (Some (Js.Num (Js.Finito (inject_Z 2)))) 2)
    as (s1 & Hp & Hg & _ & s2 & Hp2 & Hg2).
  - apply cenario_alcancavel. vm_compute. discriminate.
  - exact G.
  - vm_compute. reflexivity.
  - discriminate.
  - vm_compute. reflexivity.
  - reflexivity.
  - reflexivity.
  - reflexivity.
  - reflexivity.
  - exists s1. split; [exact Hp|]. split; [exact Hg|]. exists s2. split; assumption.
Defined.

(** X7, an instance: Bob's client starts to close; Alice writes to him. *)
Lemma mensagem_nao_enviada_durante_o_fechamento_exemplo :
  nth_error (sockets (Cenario.estado Cenario.bob_conectado)) 0 = Some OPEN /\
  Js.Map_get (Js.chave_int 2) (conexoes (Cenario.estado Cenario.bob_conectado))
    = Some 0%nat /\
  enviados (fst (post_mensagens Escreve.stringify 30 (PInt 1) (PInt 2) (Some "tudo bem?")
                   (com_ready_state 0%nat CLOSING (Cenario.estado Cenario.bob_conectado))))
    = [] /\
  snd (post_mensagens Escreve.stringify 30 (PInt 1) (PInt 2) (Some "tudo bem?")
         (com_ready_state 0%nat CLOSING (Cenario.estado Cenario.bob_conectado)))
    = mk_resposta 200 (json_mensagem Reconexao.tudo_bem).
Proof.
  assert (Hws : nth_error (sockets (Cenario.estado Cenario.bob_conectado)) 0 = Some OPEN)
    by (vm_compute; reflexivity).
  assert (G : Js.Map_get (Js.chave_int 2) (conexoes (Cenario.estado Cenario.bob_conectado))
              = Some 0%nat) by (vm_compute; reflexivity).
  split; [exact Hws|]. split; [exact G|].
  destruct (mensagem_nao_enviada_durante_o_fechamento Json.parse Escreve.stringify
              (Cenario.estado Cenario.bob_conectado) 0%nat 2 Hws G) as (_ & _ & H).
  rewrite (H 30 (PInt 1) (PInt 2) (Some "tudo bem?")
             (pool (Cenario.estado Reconexao.entregue)) Reconexao.tudo_bem);
    [split; reflexivity | vm_compute; reflexivity | reflexivity].
Defined.

(** X10, an instance: the summary of Alice and her conversation with Bob. *)
Lemma resumo_concorda_com_a_conversa_exemplo :
  banco_ok Cenario.banco_contatos /\
  (In 2 (map Resumo.outro_usuario_id (executa_select_conversas Cenario.banco_contatos 1))
   <-> executa_select_conversa Cenario.banco_contatos 1 2 <> []).
Proof.
  split; [exact banco_contatos_ok|].
  exact (proj2 (resumo_concorda_com_a_conversa Cenario.banco_contatos 1 2 _ _
                  banco_contatos_ok
                  (executa_select_conversas_ok Cenario.banco_contatos 1)
                  (executa_select_conversa_ok Cenario.banco_contatos 1 2))).
Defined.


(** X8, an instance: the frame [null] is a JSON text, and the callback throws. *)
Lemma on_message_lanca_exatamente_exemplo :
  Json.parse "null" = Some Js.Null /\
  fst (on_message Json.parse 0%nat "null" (Cenario.estado [connection]))
    = Cenario.estado [connection] /\
  on_message Json.parse 0%nat "[1, 2]" (Cenario.estado [connection])
    = (Cenario.estado [connection], None).
Proof.
  assert (Hp : Json.parse "null" = Some Js.Null) by (vm_compute; reflexivity).
  split; [exact Hp|]. split.
  - apply (proj1 (proj2 (on_message_lanca_exatamente Json.parse 0%nat "null"
                           (Cenario.estado [connection])))).
    right. exact Hp.
  - apply (proj2 (proj2 (on_message_lanca_exatamente Json.parse 0%nat "[1, 2]"
                           (Cenario.estado [connection])))
                 (Js.Arr [Js.Num (Js.Finito (inject_Z 1)); Js.Num (Js.Finito (inject_Z 2))])
                 None);
      vm_compute; reflexivity.
Defined.

(** X9, an instance: the summary of an id that is no user, and the
    conversation of Bob and Carol, who exchanged no message. *)
Lemma leituras_sem_linhas_exemplo :
  get_conversas (PInt 9) (Cenario.estado Cenario.contatos)
    (mk_resposta 200 (json_conversas [])) /\
  get_mensagens (PInt 2) (PInt 3) (Cenario.estado Cenario.contatos)
    (mk_resposta 200 (json_conversa [])).
Proof.
  destruct (leituras_sem_linhas (Cenario.estado Cenario.contatos)) as (H1 & H2 & _).
  split.
  - apply (H1 9); [unfold INT_MIN, INT_MAX; lia | | reflexivity].
    intros m Hm. vm_compute in Hm.
    destruct Hm as [<-|[<-|[]]]; split; discriminate.
  - apply (H2 2 3); [unfold INT_MIN, INT_MAX; lia.. | | reflexivity].
    intros m [Hm Hpar]. vm_compute in Hm.
    destruct Hm as [<-|[<-|[]]]; simpl in Hpar;
      destruct Hpar as [[? ?]|[? ?]]; discriminate.
Defined.
